(** * blackbox.stats.distributions: log-densities over a tensor engine

    A shallow embedding of [src/blackbox/stats/distributions.py].

    The module evaluates log-densities with TensorFlow.  The embedding
    keeps the element type of tensors abstract ([FloatOps]): every
    arithmetic operation of the engine is an uninterpreted function, so a
    theorem proved here holds for IEEE arithmetic as well as for the real
    numbers, unless it names the laws it needs as hypotheses.  Tensors of
    rank 0, 1 and 2 (the ranks the docstrings of the module admit) are
    modelled structurally; shape failures of the engine and Python
    exceptions are values of an error monad. *)

From Stdlib Require Import String.
From Stdlib Require Import Reals Lra.
From Stdlib Require Import List Arith Bool Lia.
Import ListNotations.

Set Implicit Arguments.

(** ** Failures *)

(** What a call can raise: a shape failure of the tensor engine, Python's
    [IndexError] and [NotImplementedError], and a failure of the linear
    algebra kernels. *)
Inductive error : Type :=
| ShapeError
| IndexError
| NotImplementedError
| LinAlgError.

Inductive result (A : Type) : Type :=
| Ok (a : A)
| Err (e : error).

Arguments Ok {A} a.
Arguments Err {A} e.

Definition bind {A B : Type} (c : result A) (k : A -> result B) : result B :=
  match c with
  | Ok a => k a
  | Err e => Err e
  end.

Definition rmap {A B : Type} (f : A -> B) (c : result A) : result B :=
  bind c (fun a => Ok (f a)).

Declare Scope result_scope.
Delimit Scope result_scope with result.
Notation "x <- c ;; k" := (bind c (fun x => k))
  (at level 61, c at next level, right associativity) : result_scope.
Notation "' pat <- c ;; k" := (bind c (fun x => match x with pat => k end))
  (at level 61, pat pattern, c at next level, right associativity) : result_scope.
Local Open Scope result_scope.

Definition returns {A : Type} (c : result A) : bool :=
  match c with Ok _ => true | Err _ => false end.

(** ** Element arithmetic *)

(** The arithmetic the module uses on tensor elements and on Python
    floats.  [of_nat] is the conversion of a Python [int] (the
    dimensionality [d]) in a float expression. *)
Class FloatOps (F : Type) : Type := {
  fadd : F -> F -> F;
  fsub : F -> F -> F;
  fmul : F -> F -> F;
  fdiv : F -> F -> F;
  fneg : F -> F;
  flog : F -> F;
  fzero : F;
  fone : F;
  fhalf : F;
  ftwo : F;
  fpi : F;
  of_nat : nat -> F
}.

Declare Scope float_scope.
Delimit Scope float_scope with float.
Infix "+." := fadd (at level 50, left associativity) : float_scope.
Infix "-." := fsub (at level 50, left associativity) : float_scope.
Infix "*." := fmul (at level 40, left associativity) : float_scope.
Infix "/." := fdiv (at level 40, left associativity) : float_scope.

(** ** Tensors *)

Section Tensors.

Context {F : Type} {ops : FloatOps F}.

(** A matrix is the list of its rows.  A matrix with no rows has no
    column count in this representation. *)
Inductive tensor : Type :=
| Scalar (v : F)
| Vector (l : list F)
| Matrix (m : list (list F)).

(** [len(t.get_shape())] *)
Definition rank (t : tensor) : nat :=
  match t with
  | Scalar _ => 0
  | Vector _ => 1
  | Matrix _ => 2
  end.

(** [t.get_shape()] as a list of dimension values. *)
Definition get_shape (t : tensor) : list nat :=
  match t with
  | Scalar _ => []
  | Vector l => [length l]
  | Matrix m => [length m; length (hd [] m)]
  end.

(** *** Element-wise operations with broadcasting *)

Fixpoint mapM {A B : Type} (f : A -> result B) (l : list A) : result (list B) :=
  match l with
  | [] => Ok []
  | a :: l' => b <- f a ;; bs <- mapM f l' ;; Ok (b :: bs)
  end.

Fixpoint zipM {A B C : Type} (f : A -> B -> result C)
    (l1 : list A) (l2 : list B) : result (list C) :=
  match l1, l2 with
  | [], [] => Ok []
  | a :: l1', b :: l2' => c <- f a b ;; cs <- zipM f l1' l2' ;; Ok (c :: cs)
  | _, _ => Err ShapeError
  end.

(** One dimension of a broadcast: a dimension of size one is stretched,
    otherwise the two sizes must agree. *)
Definition bcast {A B C : Type} (f : A -> B -> result C)
    (l1 : list A) (l2 : list B) : result (list C) :=
  match l1, l2 with
  | [a], _ => mapM (f a) l2
  | _, [b] => mapM (fun a => f a b) l1
  | _, _ => zipM f l1 l2
  end.

Definition row_op (op : F -> F -> F) (r1 r2 : list F) : result (list F) :=
  bcast (fun a b => Ok (op a b)) r1 r2.

Definition mat_op (op : F -> F -> F) (m1 m2 : list (list F))
    : result (list (list F)) :=
  bcast (row_op op) m1 m2.

(** A binary element-wise operator of the engine ([+], [-], [*], [/],
    [tf.mul], [tf.sub], [tf.truediv]) on tensors of rank at most two. *)
Definition tf_binop (op : F -> F -> F) (t1 t2 : tensor) : result tensor :=
  match t1, t2 with
  | Scalar a, Scalar b => Ok (Scalar (op a b))
  | Scalar a, Vector l => Ok (Vector (map (op a) l))
  | Vector l, Scalar b => Ok (Vector (map (fun a => op a b) l))
  | Scalar a, Matrix m => Ok (Matrix (map (map (op a)) m))
  | Matrix m, Scalar b => Ok (Matrix (map (map (fun a => op a b)) m))
  | Vector l1, Vector l2 => rmap Vector (row_op op l1 l2)
  | Vector l, Matrix m => rmap Matrix (mat_op op [l] m)
  | Matrix m, Vector l => rmap Matrix (mat_op op m [l])
  | Matrix m1, Matrix m2 => rmap Matrix (mat_op op m1 m2)
  end.

Definition tf_add := tf_binop fadd.
Definition tf_sub := tf_binop fsub.
Definition tf_mul := tf_binop fmul.
Definition tf_div := tf_binop fdiv.

(** A unary element-wise operator ([tf.log], [tf.square], unary minus). *)
Definition tf_map (f : F -> F) (t : tensor) : tensor :=
  match t with
  | Scalar v => Scalar (f v)
  | Vector l => Vector (map f l)
  | Matrix m => Matrix (map (map f) m)
  end.

Definition tf_log := tf_map flog.
Definition tf_neg := tf_map fneg.
Definition tf_square := tf_map (fun v => fmul v v).

(** *** Shape operations *)

(** All elements in row-major order. *)
Definition elements (t : tensor) : list F :=
  match t with
  | Scalar v => [v]
  | Vector l => l
  | Matrix m => concat m
  end.

(** A rank-two view of a tensor with the same elements. *)
Definition as_matrix (t : tensor) : tensor :=
  match t with
  | Scalar v => Matrix [[v]]
  | Vector l => Matrix [l]
  | Matrix m => Matrix m
  end.

(** [tf.reshape(t, [-1])] *)
Definition tf_reshape_flat (t : tensor) : tensor := Vector (elements t).

(** [tf.squeeze(t)]: every dimension of size one is removed. *)
Definition squeeze_vector (l : list F) : tensor :=
  match l with
  | [v] => Scalar v
  | _ => Vector l
  end.

Definition tf_squeeze (t : tensor) : tensor :=
  match t with
  | Scalar v => Scalar v
  | Vector l => squeeze_vector l
  | Matrix m =>
      match m with
      | [row] => squeeze_vector row
      | _ => if forallb (fun row => length row =? 1) m
             then Vector (concat m)
             else Matrix m
      end
  end.

(** [tf.transpose(t)] *)
Definition transpose_rows (m : list (list F)) : list (list F) :=
  match m with
  | [] => []
  | row :: _ =>
      map (fun j => map (fun r => nth j r fzero) m) (seq 0 (length row))
  end.

Definition tf_transpose (t : tensor) : tensor :=
  match t with
  | Matrix m => Matrix (transpose_rows m)
  | _ => t
  end.

(** [tf.ones([d])] and [tf.constant(c)] *)
Definition tf_ones (d : nat) : tensor := Vector (repeat fone d).
Definition tf_constant (c : F) : tensor := Scalar c.

(** [tf.diag] of a vector: the square matrix with the vector on its
    diagonal and zero elsewhere.  The module applies it to vectors only;
    the result for a matrix has rank four and lies outside [tensor]. *)
Fixpoint diag (l : list F) : list (list F) :=
  match l with
  | [] => []
  | v :: l' => (v :: repeat fzero (length l')) :: map (cons fzero) (diag l')
  end.

Definition tf_diag (t : tensor) : result tensor :=
  match t with
  | Vector l => Ok (Matrix (diag l))
  | _ => Err ShapeError
  end.

(** [tf.reduce_sum] and [tf.reduce_prod] over all elements, accumulated
    from the neutral element in row-major order. *)
Definition reduce_sum (l : list F) : F := fold_left fadd l fzero.
Definition reduce_prod (l : list F) : F := fold_left fmul l fone.

Definition tf_reduce_sum (t : tensor) : tensor := Scalar (reduce_sum (elements t)).
Definition tf_reduce_prod (t : tensor) : tensor := Scalar (reduce_prod (elements t)).

(** [tf.matmul]: both operands have rank two and the inner dimensions
    agree. *)
Definition dotp (r c : list F) : F := reduce_sum (map (fun p => fmul (fst p) (snd p)) (combine r c)).

Definition matmul (m1 m2 : list (list F)) : result (list (list F)) :=
  if forallb (fun r => length r =? length m2) m1
  then Ok (map (fun r => map (dotp r) (transpose_rows m2)) m1)
  else Err ShapeError.

Definition tf_matmul (t1 t2 : tensor) : result tensor :=
  match t1, t2 with
  | Matrix m1, Matrix m2 => rmap Matrix (matmul m1 m2)
  | _, _ => Err ShapeError
  end.

(** [tf.reshape(t, [1, d])] and [tf.reshape(t, [d, 1])]: the element count
    must be [d]. *)
Definition tf_reshape_row (t : tensor) (d : nat) : result tensor :=
  if length (elements t) =? d then Ok (Matrix [elements t]) else Err ShapeError.

Definition tf_reshape_col (t : tensor) (d : nat) : result tensor :=
  if length (elements t) =? d
  then Ok (Matrix (map (fun v => [v]) (elements t)))
  else Err ShapeError.

End Tensors.

Arguments tensor F : clear implicits.

(** ** The engine's linear algebra and the helpers of [blackbox.util] *)

(** [tf.matrix_inverse] and [tf.matrix_determinant] are kernels of the
    engine; the module only calls them. *)
Class LinAlg (F : Type) : Type := {
  matrix_inverse : list (list F) -> result (list (list F));
  matrix_determinant : list (list F) -> result F
}.

(** The special functions imported from [blackbox.util], whose source is
    not part of the module.  [lgamma] and [lbeta] are the log-Gamma and
    log-Beta functions on elements; the three normalisers act on whole
    tensors. *)
Class SpecialFunctions (F : Type) : Type := {
  lgamma : F -> F;
  lbeta : F -> F -> F;
  log_dirichlet : tensor F -> result (tensor F);
  log_multinomial : tensor F -> tensor F -> result (tensor F);
  log_inv_gamma : tensor F -> tensor F -> result (tensor F)
}.

Section Distributions.

Context {F : Type} {ops : FloatOps F} {la : LinAlg F} {sf : SpecialFunctions F}.

Local Abbreviation tensor := (tensor F).

(** A Python number used where the engine expects a tensor. *)
Definition py (c : F) : tensor := tf_constant c.

Definition tf_matrix_inverse (t : tensor) : result tensor :=
  match t with
  | Matrix m => rmap Matrix (matrix_inverse m)
  | _ => Err ShapeError
  end.

Definition tf_matrix_determinant (t : tensor) : result tensor :=
  match t with
  | Matrix m => rmap Scalar (matrix_determinant m)
  | _ => Err ShapeError
  end.

(** Modelled from the spec: [log_gamma] of [blackbox.util], the log-Gamma
    function, a pure mathematical primitive applied to every element. *)
Definition log_gamma (t : tensor) : tensor := tf_map lgamma t.

(** Modelled from the spec: [log_beta] of [blackbox.util], the log-Beta
    function, a pure mathematical primitive of two arguments applied
    element-wise. *)
Definition log_beta (a b : tensor) : result tensor := tf_binop lbeta a b.

(** Modelled from the spec: [get_dims] of [blackbox.util], the
    dimension-introspection helper.  The dimensionality is taken from the
    leading shape of its argument, and a scalar has dimensionality one. *)
Definition get_dims (t : tensor) : list nat :=
  match t with
  | Scalar _ => [1]
  | _ => get_shape t
  end.

(** [t.get_shape()[0].value] *)
Definition shape0 (t : tensor) : result nat :=
  match get_shape t with
  | [] => Err IndexError
  | n :: _ => Ok n
  end.

(** Modelled from the spec: [dot] of [blackbox.util], the matrix
    dot-product helper used for the quadratic form.  A vector on the left
    is a row, a vector on the right is a column, and the product is the
    engine's matrix product. *)
Definition dot (x y : tensor) : result tensor :=
  if rank x =? 1 then
    d <- shape0 x ;;
    row <- tf_reshape_row x d ;;
    tf_matmul row y
  else
    d <- shape0 y ;;
    col <- tf_reshape_col y d ;;
    tf_matmul x col.

(** *** Bernoulli *)

Definition Bernoulli_logpmf (x p : tensor) : result tensor :=
  let x := tf_squeeze x in
  let p := tf_squeeze p in
  t1 <- tf_mul x (tf_log p) ;;
  omx <- tf_sub (py fone) x ;;
  omp <- tf_sub (py fone) p ;;
  t2 <- tf_mul omx (tf_log omp) ;;
  tf_add t1 t2.

(** *** Beta *)

Definition Beta_logpdf (x a b : tensor) : result tensor :=
  let x := tf_squeeze x in
  let a := tf_squeeze b in
  let b := tf_squeeze a in
  am1 <- tf_sub a (py fone) ;;
  t1 <- tf_mul am1 (tf_log x) ;;
  bm1 <- tf_sub b (py fone) ;;
  omx <- tf_sub (py fone) x ;;
  t2 <- tf_mul bm1 (tf_log omx) ;;
  s <- tf_add t1 t2 ;;
  lb <- log_beta a b ;;
  tf_sub s lb.

(** *** Dirichlet *)

Definition Dirichlet_logpdf (x alpha : tensor) : result tensor :=
  let x := tf_squeeze x in
  let alpha := tf_squeeze alpha in
  ld <- log_dirichlet alpha ;;
  am1 <- tf_sub alpha (py fone) ;;
  m <- tf_mul am1 (tf_log x) ;;
  tf_add (tf_neg ld) (tf_reduce_sum m).

(** *** Exponential *)

Definition Expon_logpdf (x scale : tensor) : result tensor :=
  let x := tf_squeeze x in
  let scale := tf_squeeze scale in
  q <- tf_div (tf_neg x) scale ;;
  tf_sub q (tf_log scale).

(** *** Gamma, shape/scale parameterisation *)

Definition Gamma_logpdf (x a scale : tensor) : result tensor :=
  let x := tf_squeeze x in
  let a := tf_squeeze a in
  let scale := tf_squeeze scale in
  am1 <- tf_sub a (py fone) ;;
  t1 <- tf_mul am1 (tf_log x) ;;
  q <- tf_div x scale ;;
  s1 <- tf_sub t1 q ;;
  t3 <- tf_mul a (tf_log scale) ;;
  s2 <- tf_sub s1 t3 ;;
  tf_sub s2 (log_gamma a).

(** *** Inverse Gamma *)

Definition InvGamma_logpdf (x alpha beta : tensor) : result tensor :=
  let x := tf_squeeze x in
  let alpha := tf_squeeze alpha in
  let beta := tf_squeeze beta in
  lig <- log_inv_gamma alpha beta ;;
  ap1 <- tf_add alpha (py fone) ;;
  t2 <- tf_mul ap1 (tf_log x) ;;
  s1 <- tf_sub (tf_neg lig) t2 ;;
  q <- tf_div beta x ;;
  tf_sub s1 q.

(** *** Multinomial *)

Definition Multinomial_logpmf (x n p : tensor) : result tensor :=
  let x := tf_squeeze x in
  let n := tf_squeeze n in
  let p := tf_squeeze p in
  lm <- log_multinomial x n ;;
  m <- tf_mul x (tf_log p) ;;
  tf_add (tf_neg lm) (tf_reduce_sum m).

(** *** Poisson *)

Definition Poisson_logpmf (x mu : tensor) : result tensor :=
  let x := tf_squeeze x in
  let mu := tf_squeeze mu in
  t1 <- tf_mul x (tf_log mu) ;;
  s1 <- tf_sub t1 mu ;;
  xp1 <- tf_add x (py fone) ;;
  tf_sub s1 (log_gamma xp1).

(** *** Student t *)

Definition T_logpdf (x df loc scale : tensor) : result tensor :=
  let x := tf_squeeze x in
  let df := tf_squeeze df in
  let loc := tf_squeeze loc in
  let scale := tf_squeeze scale in
  dp1 <- tf_add df (py fone) ;;
  t1 <- tf_mul (py fhalf) (log_gamma dp1) ;;
  hdf <- tf_mul (py fhalf) df ;;
  s1 <- tf_sub t1 (log_gamma hdf) ;;
  lpd <- tf_add (py (flog fpi)) (tf_log df) ;;
  t3 <- tf_mul (py fhalf) lpd ;;
  s2 <- tf_sub s1 t3 ;;
  s3 <- tf_add s2 (tf_log scale) ;;
  dp1' <- tf_add df (py fone) ;;
  h <- tf_mul (py fhalf) dp1' ;;
  idf <- tf_div (py fone) df ;;
  xl <- tf_sub x loc ;;
  z <- tf_div xl scale ;;
  w <- tf_mul idf (tf_square z) ;;
  arg <- tf_add (py fone) w ;;
  t5 <- tf_mul h (tf_log arg) ;;
  tf_sub s3 t5.

(** *** Wishart *)

Definition Wishart_logpdf (x df scale : tensor) : result tensor :=
  Err NotImplementedError.

(** *** Normal *)

(** Lines 122-127 of the source: the residual [r]. *)
Definition Norm_residual (d : nat) (x : tensor) (mu : option tensor)
    : result tensor :=
  match mu with
  | None => tf_mul (tf_ones d) x
  | Some mu =>
      if rank mu =? 0 then tf_sub x mu
      else tf_sub x mu
  end.

(** Lines 129-140 of the source: the pair [(Sigma_inv, det_Sigma)]. *)
Definition Norm_cov (d : nat) (Sigma : option tensor)
    : result (tensor * tensor) :=
  match Sigma with
  | None =>
      Sigma_inv <- tf_diag (tf_ones d) ;;
      Ok (Sigma_inv, tf_constant fone)
  | Some Sigma =>
      if rank Sigma =? 0 then
        Sigma_inv <- tf_div (py fone) Sigma ;;
        Ok (Sigma_inv, Sigma)
      else if rank Sigma =? 1 then
        recip <- tf_div (py fone) Sigma ;;
        Sigma_inv <- tf_diag recip ;;
        Ok (Sigma_inv, tf_reduce_prod Sigma)
      else
        Sigma_inv <- tf_matrix_inverse Sigma ;;
        det_Sigma <- tf_matrix_determinant Sigma ;;
        Ok (Sigma_inv, det_Sigma)
  end.

(** The two shared leading terms,
    [-0.5*d*tf.log(2*np.pi) - 0.5*tf.log(det_Sigma)]. *)
Definition Norm_head (d : nat) (det_Sigma : tensor) : result tensor :=
  a <- tf_mul (py (fmul (fneg fhalf) (of_nat d))) (tf_log (py (fmul ftwo fpi))) ;;
  b <- tf_mul (py fhalf) (tf_log det_Sigma) ;;
  tf_sub a b.

(** Lines 143-145: the branch [d == 1]. *)
Definition Norm_lps_scalar (d : nat) (r Sigma_inv det_Sigma : tensor)
    : result tensor :=
  ab <- Norm_head d det_Sigma ;;
  hr <- tf_mul (py fhalf) r ;;
  hrs <- tf_mul hr Sigma_inv ;;
  c <- tf_mul hrs r ;;
  tf_sub ab c.

(** Lines 147-149: the other branch. *)
Definition Norm_lps_quad (d : nat) (r Sigma_inv det_Sigma : tensor)
    : result tensor :=
  ab <- Norm_head d det_Sigma ;;
  rS <- dot (tf_transpose r) Sigma_inv ;;
  q <- dot rS r ;;
  c <- tf_mul (py fhalf) q ;;
  tf_sub ab c.

Definition Norm_logpdf (x : tensor) (mu Sigma : option tensor)
    : result tensor :=
  let d := hd 0 (get_dims x) in
  r <- Norm_residual d x mu ;;
  '(Sigma_inv, det_Sigma) <- Norm_cov d Sigma ;;
  lps <- (if d =? 1
          then Norm_lps_scalar d r Sigma_inv det_Sigma
          else Norm_lps_quad d r Sigma_inv det_Sigma) ;;
  Ok (tf_reshape_flat lps).

Definition Norm_entropy (Sigma : tensor) : result tensor :=
  let d := hd 0 (get_dims Sigma) in
  det_Sigma <- (if rank Sigma =? 0 then Ok Sigma
                else if rank Sigma =? 1 then Ok (tf_reduce_prod Sigma)
                else tf_matrix_determinant Sigma) ;;
  s <- tf_add (py (fadd (of_nat d) (fmul (of_nat d) (flog (fmul ftwo fpi)))))
              (tf_log det_Sigma) ;;
  tf_mul (py fhalf) s.

End Distributions.

(** ** The formulas of the specification *)

Section Specification.

Context {F : Type} {ops : FloatOps F} {la : LinAlg F} {sf : SpecialFunctions F}.

Local Abbreviation tensor := (tensor F).
Local Open Scope float_scope.

(** The density of the branch [d == 1], written as the spec writes it:
    [-0.5*d*log(2*pi) - 0.5*log(det_Sigma) - 0.5*r*Sigma_inv*r] with the
    engine's element-wise operators. *)
Definition lift2 (op : tensor -> tensor -> result tensor)
    (a b : result tensor) : result tensor :=
  (u <- a ;; v <- b ;; op u v)%result.

Definition density_elementwise (d : nat) (r Sigma_inv det_Sigma : tensor)
    : result tensor :=
  lift2 tf_sub
    (lift2 tf_sub
       (tf_mul (py (fneg fhalf *. of_nat d)) (tf_log (py (ftwo *. fpi))))
       (tf_mul (py fhalf) (tf_log det_Sigma)))
    (lift2 tf_mul (lift2 tf_mul (tf_mul (py fhalf) r) (Ok Sigma_inv)) (Ok r)).

(** The density of the other branch as the spec writes it: the same two
    leading terms and half the quadratic form [r^T Sigma_inv r], computed
    with matrix products. *)
Definition quadratic_form (r Sigma_inv : tensor) : result tensor :=
  (rS <- dot (tf_transpose r) Sigma_inv ;; dot rS r)%result.

Definition density_quadratic (d : nat) (r Sigma_inv det_Sigma : tensor)
    : result tensor :=
  lift2 tf_sub
    (lift2 tf_sub
       (tf_mul (py (fneg fhalf *. of_nat d)) (tf_log (py (ftwo *. fpi))))
       (tf_mul (py fhalf) (tf_log det_Sigma)))
    (lift2 tf_mul (Ok (py fhalf)) (quadratic_form r Sigma_inv)).

(** The value [Beta.logpdf] computes at one element [x] when both shape
    variables hold [b]. *)
Definition Beta_value (b x : F) : F :=
  (b -. fone) *. flog x +. (b -. fone) *. flog (fone -. x) -. lbeta b b.

(** The value the closed form of the Beta density takes at [x] for the
    shape parameters [a] and [b]. *)
Definition Beta_closed_form (a b x : F) : F :=
  (a -. fone) *. flog x +. (b -. fone) *. flog (fone -. x) -. lbeta a b.

(** The closed form of the Beta density on tensors, with the engine's
    broadcasting operators. *)
Definition Beta_density (x a b : tensor) : result tensor :=
  lift2 tf_sub
    (lift2 tf_add
       (lift2 tf_mul (tf_sub a (py fone)) (Ok (tf_log x)))
       (lift2 tf_mul (tf_sub b (py fone))
          (rmap tf_log (tf_sub (py fone) x))))
    (log_beta a b).

(** The Student-t expression of the source at one element [x]. *)
Definition T_value (df loc scale x : F) : F :=
  fhalf *. lgamma (df +. fone) -. lgamma (fhalf *. df)
  -. fhalf *. (flog fpi +. flog df) +. flog scale
  -. fhalf *. (df +. fone)
     *. flog (fone +. fone /. df *. (((x -. loc) /. scale) *. ((x -. loc) /. scale))).

(** The entropy expression of the source for dimensionality [d] and
    determinant [det]. *)
Definition entropy_value (d : nat) (det : F) : F :=
  fhalf *. (of_nat d +. of_nat d *. flog (ftwo *. fpi) +. flog det).

(** The Student-t expression on tensors, with the engine's broadcasting
    operators. *)
Definition T_density (x df loc scale : tensor) : result tensor :=
  lift2 tf_sub
    (lift2 tf_add
       (lift2 tf_sub
          (lift2 tf_sub
             (lift2 tf_mul (Ok (py fhalf))
                (rmap log_gamma (tf_add df (py fone))))
             (rmap log_gamma (tf_mul (py fhalf) df)))
          (lift2 tf_mul (Ok (py fhalf))
             (tf_add (py (flog fpi)) (tf_log df))))
       (Ok (tf_log scale)))
    (lift2 tf_mul
       (lift2 tf_mul (Ok (py fhalf)) (tf_add df (py fone)))
       (rmap tf_log
          (lift2 tf_add (Ok (py fone))
             (lift2 tf_mul (tf_div (py fone) df)
                (rmap tf_square (lift2 tf_div (tf_sub x loc) (Ok scale))))))).

End Specification.

(** ** The module-level singletons *)

(** The names the module binds at import time, one instance per class:
    [bernoulli = Bernoulli()], ..., [wishart = Wishart()]. *)
Module Singletons.

Inductive name : Type :=
| bernoulli | beta | dirichlet | expon | gamma | invgamma
| multinomial | norm | poisson | t | wishart.

Definition eqb (n1 n2 : name) : bool :=
  match n1, n2 with
  | bernoulli, bernoulli | beta, beta | dirichlet, dirichlet
  | expon, expon | gamma, gamma | invgamma, invgamma
  | multinomial, multinomial | norm, norm | poisson, poisson
  | t, t | wishart, wishart => true
  | _, _ => false
  end.

End Singletons.

Section Objects.

Context {F : Type} {ops : FloatOps F} {la : LinAlg F} {sf : SpecialFunctions F}.

Local Abbreviation tensor := (tensor F).

(** The attribute dictionary of an instance.  No class of the module
    defines [__init__] or class attributes, so construction leaves it
    empty. *)
Definition instance : Type := list (string * tensor).

Definition construct : instance := [].

(** The globals of the module after import. *)
Definition module_state : Type := Singletons.name -> instance.

Definition module_init : module_state := fun _ => construct.

Definition rebind (st : module_state) (n : Singletons.name) (i : instance)
    : module_state :=
  fun n' => if Singletons.eqb n n' then i else st n'.

(** A call of a log-density, log-mass or entropy method with its
    arguments. *)
Inductive method_call : Type :=
| bernoulli_logpmf (x p : tensor)
| beta_logpdf (x a b : tensor)
| dirichlet_logpdf (x alpha : tensor)
| expon_logpdf (x scale : tensor)
| gamma_logpdf (x a scale : tensor)
| invgamma_logpdf (x alpha beta : tensor)
| multinomial_logpmf (x n p : tensor)
| norm_logpdf (x : tensor) (mu Sigma : option tensor)
| norm_entropy (Sigma : tensor)
| poisson_logpmf (x mu : tensor)
| t_logpdf (x df loc scale : tensor)
| wishart_logpdf (x df scale : tensor).

Definition receiver (c : method_call) : Singletons.name :=
  match c with
  | bernoulli_logpmf _ _ => Singletons.bernoulli
  | beta_logpdf _ _ _ => Singletons.beta
  | dirichlet_logpdf _ _ => Singletons.dirichlet
  | expon_logpdf _ _ => Singletons.expon
  | gamma_logpdf _ _ _ => Singletons.gamma
  | invgamma_logpdf _ _ _ => Singletons.invgamma
  | multinomial_logpmf _ _ _ => Singletons.multinomial
  | norm_logpdf _ _ _ | norm_entropy _ => Singletons.norm
  | poisson_logpmf _ _ => Singletons.poisson
  | t_logpdf _ _ _ _ => Singletons.t
  | wishart_logpdf _ _ _ => Singletons.wishart
  end.

(** A method body run on its receiver: the value it returns or the
    exception it raises, and the receiver afterwards.  No body of the
    module reads or assigns an attribute of [self]. *)
Definition run_method (c : method_call) (self : instance)
    : result tensor * instance :=
  match c with
  | bernoulli_logpmf x p => (Bernoulli_logpmf x p, self)
  | beta_logpdf x a b => (Beta_logpdf x a b, self)
  | dirichlet_logpdf x alpha => (Dirichlet_logpdf x alpha, self)
  | expon_logpdf x scale => (Expon_logpdf x scale, self)
  | gamma_logpdf x a scale => (Gamma_logpdf x a scale, self)
  | invgamma_logpdf x alpha beta => (InvGamma_logpdf x alpha beta, self)
  | multinomial_logpmf x n p => (Multinomial_logpmf x n p, self)
  | norm_logpdf x mu Sigma => (Norm_logpdf x mu Sigma, self)
  | norm_entropy Sigma => (Norm_entropy Sigma, self)
  | poisson_logpmf x mu => (Poisson_logpmf x mu, self)
  | t_logpdf x df loc scale => (T_logpdf x df loc scale, self)
  | wishart_logpdf x df scale => (Wishart_logpdf x df scale, self)
  end.

(** A call through the module-level name of the receiver. *)
Definition invoke (c : method_call) (st : module_state)
    : result tensor * module_state :=
  let '(v, self) := run_method c (st (receiver c)) in
  (v, rebind st (receiver c) self).

End Objects.

(** ** Reference engines *)

(** Exact linear algebra over the element operations: the determinant by
    cofactor expansion along the first row, the inverse as the adjugate
    divided by the determinant. *)
Section ExactLinearAlgebra.

Context {F : Type} {ops : FloatOps F}.

Local Open Scope float_scope.

Fixpoint remove_nth {A : Type} (j : nat) (l : list A) : list A :=
  match l, j with
  | [], _ => []
  | _ :: l', 0 => l'
  | a :: l', S j' => a :: remove_nth j' l'
  end.

Definition sign (j : nat) : F := if Nat.even j then fone else fneg fone.

Fixpoint det_fuel (n : nat) (m : list (list F)) : F :=
  match n with
  | 0 => fone
  | S n' =>
      match m with
      | [] => fone
      | row :: rest =>
          reduce_sum
            (map (fun j => sign j *. nth j row fzero
                           *. det_fuel n' (map (remove_nth j) rest))
                 (seq 0 (length row)))
      end
  end.

Definition cofactor_det (m : list (list F)) : F := det_fuel (length m) m.

Definition minor (i j : nat) (m : list (list F)) : list (list F) :=
  map (remove_nth j) (remove_nth i m).

Definition adjugate_inverse (m : list (list F)) : list (list F) :=
  map (fun i =>
         map (fun j => sign (i + j) *. cofactor_det (minor j i m)
                       /. cofactor_det m)
             (seq 0 (length m)))
      (seq 0 (length m)).

Definition is_square (m : list (list F)) : bool :=
  forallb (fun row => length row =? length m) m.

Definition exact_linalg : LinAlg F := {|
  matrix_inverse m :=
    if is_square m then Ok (adjugate_inverse m) else Err ShapeError;
  matrix_determinant m :=
    if is_square m then Ok (cofactor_det m) else Err ShapeError
|}.

(** The normalisers derived from a log-Gamma function by their textbook
    definitions. *)
Definition special_of (lg : F -> F) (lb : F -> F -> F) : SpecialFunctions F := {|
  lgamma := lg;
  lbeta := lb;
  log_dirichlet alpha :=
    Ok (Scalar (reduce_sum (map lg (elements alpha))
                -. lg (reduce_sum (elements alpha))));
  log_multinomial x n :=
    tf_sub (tf_map (fun v => lg (v +. fone)) n)
           (Scalar (reduce_sum (map (fun v => lg (v +. fone)) (elements x))));
  log_inv_gamma alpha beta :=
    (t <- tf_mul alpha (tf_log beta) ;; tf_sub (tf_map lg alpha) t)%result
|}.

End ExactLinearAlgebra.

(** The real numbers as element type. *)
Definition R_ops : FloatOps R := {|
  fadd := Rplus;
  fsub := Rminus;
  fmul := Rmult;
  fdiv := Rdiv;
  fneg := Ropp;
  flog := ln;
  fzero := 0%R;
  fone := 1%R;
  fhalf := (1 / 2)%R;
  ftwo := 2%R;
  fpi := PI;
  of_nat := INR
|}.

Definition R_linalg : LinAlg R := @exact_linalg R R_ops.

Definition R_special (lg : R -> R) (lb : R -> R -> R) : SpecialFunctions R :=
  @special_of R R_ops lg lb.

(** ** Basic facts about the error monad and the tensor operations *)

Section Facts.

Context {F : Type} {ops : FloatOps F}.

Local Abbreviation tensor := (tensor F).

Lemma bind_Ok {A B : Type} (c : result A) (k : A -> result B) (b : B) :
  bind c k = Ok b -> exists a, c = Ok a /\ k a = Ok b.
Proof.
  destruct c as [a|e]; simpl; intros H.
  - exists a. split; [reflexivity | exact H].
  - discriminate H.
Qed.

Lemma bind_Err {A B : Type} (c : result A) (k : A -> result B) (e : error) :
  c = Err e -> bind c k = Err e.
Proof. intros ->. reflexivity. Qed.

Lemma squeeze_vector_idem (l : list F) :
  tf_squeeze (squeeze_vector l) = squeeze_vector l.
Proof.
  destruct l as [|v [|w l']]; reflexivity.
Qed.

Lemma forallb_singletons_concat_length (m : list (list F)) :
  forallb (fun row => length row =? 1) m = true ->
  length (concat m) = length m.
Proof.
  induction m as [|row m IH]; simpl; intros H.
  - reflexivity.
  - apply andb_true_iff in H. destruct H as [Hr Hm].
    apply Nat.eqb_eq in Hr. rewrite length_app, Hr, (IH Hm). reflexivity.
Qed.

(** [tf.squeeze] is idempotent: a squeezed tensor has no dimension of
    size one left. *)
Lemma tf_squeeze_idem (t : tensor) : tf_squeeze (tf_squeeze t) = tf_squeeze t.
Proof.
  destruct t as [v|l|m]; simpl.
  - reflexivity.
  - apply squeeze_vector_idem.
  - destruct m as [|row [|row' m']].
    + reflexivity.
    + apply squeeze_vector_idem.
    + destruct (forallb _ (row :: row' :: m')) eqn:Hall.
      * pose proof (forallb_singletons_concat_length _ Hall) as Hlen.
        simpl in Hlen. simpl.
        destruct (row ++ row' ++ concat m') as [|v [|w l']] eqn:Hc;
          simpl in Hlen; try discriminate; reflexivity.
      * unfold tf_squeeze. rewrite Hall. reflexivity.
Qed.

(** *** Element-wise operators on tensors of one shape *)

Lemma mapM_pure {A B : Type} (f : A -> B) (l : list A) :
  mapM (fun a => Ok (f a)) l = Ok (map f l).
Proof.
  induction l as [|a l IH]; simpl.
  - reflexivity.
  - rewrite IH. reflexivity.
Qed.

Lemma zipM_same {A : Type} (op : F -> F -> F) (f g : A -> F) (l : list A) :
  zipM (fun a b => Ok (op a b)) (map f l) (map g l)
  = Ok (map (fun v => op (f v) (g v)) l).
Proof.
  induction l as [|a l IH]; simpl.
  - reflexivity.
  - rewrite IH. reflexivity.
Qed.

Lemma row_op_same {A : Type} (op : F -> F -> F) (f g : A -> F) (l : list A) :
  row_op op (map f l) (map g l) = Ok (map (fun v => op (f v) (g v)) l).
Proof.
  unfold row_op.
  destruct l as [|a [|b l]]; try reflexivity.
  change (bcast (fun a0 b0 => Ok (op a0 b0)) (map f (a :: b :: l)) (map g (a :: b :: l)))
    with (zipM (fun a0 b0 => Ok (op a0 b0)) (map f (a :: b :: l)) (map g (a :: b :: l))).
  apply zipM_same.
Qed.

Lemma zipM_rows_same {A : Type} (op : F -> F -> F) (f g : A -> F)
    (m : list (list A)) :
  zipM (row_op op) (map (map f) m) (map (map g) m)
  = Ok (map (map (fun v => op (f v) (g v))) m).
Proof.
  induction m as [|r m IH]; simpl.
  - reflexivity.
  - rewrite row_op_same, IH. reflexivity.
Qed.

Lemma mat_op_same {A : Type} (op : F -> F -> F) (f g : A -> F)
    (m : list (list A)) :
  mat_op op (map (map f) m) (map (map g) m)
  = Ok (map (map (fun v => op (f v) (g v))) m).
Proof.
  unfold mat_op.
  destruct m as [|r [|r' m]].
  - reflexivity.
  - simpl. rewrite row_op_same. reflexivity.
  - change (bcast (row_op op) (map (map f) (r :: r' :: m)) (map (map g) (r :: r' :: m)))
      with (zipM (row_op op) (map (map f) (r :: r' :: m)) (map (map g) (r :: r' :: m))).
    apply zipM_rows_same.
Qed.

Lemma tf_map_map (f g : F -> F) (t : tensor) :
  tf_map g (tf_map f t) = tf_map (fun v => g (f v)) t.
Proof.
  destruct t as [v|l|m]; simpl.
  - reflexivity.
  - rewrite map_map. reflexivity.
  - rewrite map_map. f_equal. apply map_ext. intros r. apply map_map.
Qed.

Lemma tf_map_ext (f g : F -> F) (t : tensor) :
  (forall v, f v = g v) -> tf_map f t = tf_map g t.
Proof.
  intros H. destruct t as [v|l|m]; simpl.
  - rewrite H. reflexivity.
  - f_equal. apply map_ext. exact H.
  - f_equal. apply map_ext. intros r. apply map_ext. exact H.
Qed.

Lemma tf_binop_scalar_l (op : F -> F -> F) (a : F) (t : tensor) :
  tf_binop op (Scalar a) t = Ok (tf_map (op a) t).
Proof. destruct t; reflexivity. Qed.

Lemma tf_binop_scalar_r (op : F -> F -> F) (t : tensor) (b : F) :
  tf_binop op t (Scalar b) = Ok (tf_map (fun v => op v b) t).
Proof. destruct t; reflexivity. Qed.

(** Two tensors of the same shape combine element by element, and the
    engine never reports a shape failure. *)
Lemma tf_binop_same (op : F -> F -> F) (f g : F -> F) (t : tensor) :
  tf_binop op (tf_map f t) (tf_map g t)
  = Ok (tf_map (fun v => op (f v) (g v)) t).
Proof.
  destruct t as [v|l|m]; simpl.
  - reflexivity.
  - rewrite row_op_same. reflexivity.
  - rewrite mat_op_same. reflexivity.
Qed.

End Facts.

(** ** The covariance dispatch and the shape of the Normal log-density *)

Section NormDispatch.

Context {F : Type} {ops : FloatOps F} {la : LinAlg F} {sf : SpecialFunctions F}.

Local Abbreviation tensor := (tensor F).
Local Open Scope float_scope.

Lemma diag_length (l : list F) : length (diag l) = length l.
Proof.
  induction l as [|v l IH]; simpl.
  - reflexivity.
  - rewrite length_map, IH. reflexivity.
Qed.

(** Entry [(j, i)] of [diag l] is [l_i] on the diagonal and zero off it. *)
Lemma diag_nth (l : list F) :
  forall i j, i < length l -> j < length l ->
  nth i (nth j (diag l) []) fzero = if i =? j then nth i l fzero else fzero.
Proof.
  induction l as [|v l IH]; intros i j Hi Hj; simpl in Hi, Hj.
  - lia.
  - destruct j as [|j]; simpl.
    + destruct i as [|i]; simpl.
      * reflexivity.
      * apply nth_repeat.
    + rewrite (nth_indep _ [] (fzero :: [])) by (rewrite length_map, diag_length; lia).
      rewrite (map_nth (cons fzero)).
      destruct i as [|i]; simpl.
      * reflexivity.
      * apply IH; lia.
Qed.

(** [tf.diag(tf.ones([d]))] is the [d]-by-[d] identity. *)
Lemma diag_ones_identity (d i j : nat) :
  i < d -> j < d ->
  nth i (nth j (diag (repeat fone d)) []) fzero = if i =? j then fone else fzero.
Proof.
  intros Hi Hj. rewrite diag_nth by (rewrite repeat_length; assumption).
  destruct (i =? j); [|reflexivity].
  rewrite (nth_indep _ fzero fone) by (rewrite repeat_length; assumption).
  apply nth_repeat.
Qed.

Lemma Norm_cov_absent (d : nat) :
  Norm_cov d None = Ok (Matrix (diag (repeat fone d)), Scalar fone).
Proof. reflexivity. Qed.

Lemma Norm_cov_scalar (d : nat) (s : F) :
  Norm_cov d (Some (Scalar s)) = Ok (Scalar (fone /. s), Scalar s).
Proof. reflexivity. Qed.

Lemma Norm_cov_vector (d : nat) (l : list F) :
  Norm_cov d (Some (Vector l))
  = Ok (Matrix (diag (map (fun v => fone /. v) l)), Scalar (reduce_prod l)).
Proof. reflexivity. Qed.

Lemma Norm_cov_matrix (d : nat) (m : list (list F)) :
  Norm_cov d (Some (Matrix m))
  = (inv <- matrix_inverse m ;;
     det <- matrix_determinant m ;;
     Ok (Matrix inv, Scalar det))%result.
Proof.
  unfold Norm_cov, tf_matrix_inverse, tf_matrix_determinant, rmap.
  cbn [rank Nat.eqb].
  destruct (matrix_inverse m) as [inv|e]; cbn [bind]; [|reflexivity].
  destruct (matrix_determinant m) as [det|e]; reflexivity.
Qed.

(** C1. The pair [(Sigma_inv, det_Sigma)] of [Norm.logpdf] is fixed by the
    rank of [Sigma] alone, one branch per rank: an absent [Sigma] gives the
    [d]-by-[d] identity and determinant one; a scalar gives its reciprocal
    and itself; a vector gives the diagonal matrix of the element-wise
    reciprocals and the product of its entries; a matrix gives the
    engine's general inverse and determinant. *)
Theorem Norm_cov_by_rank (d : nat) :
  Norm_cov d None = Ok (Matrix (diag (repeat fone d)), Scalar fone)
  /\ (forall i j : nat, i < d -> j < d ->
         nth i (nth j (diag (repeat fone d)) []) fzero
         = if i =? j then fone else fzero)
  /\ (forall s : F,
        Norm_cov d (Some (Scalar s)) = Ok (Scalar (fone /. s), Scalar s))
  /\ (forall l : list F,
        Norm_cov d (Some (Vector l))
        = Ok (Matrix (diag (map (fun v => fone /. v) l)), Scalar (reduce_prod l)))
  /\ (forall m : list (list F),
        Norm_cov d (Some (Matrix m))
        = (inv <- matrix_inverse m ;;
           det <- matrix_determinant m ;;
           Ok (Matrix inv, Scalar det))%result).
Proof.
  split; [|split; [|split; [|split]]].
  - apply Norm_cov_absent.
  - intros i j Hi Hj. apply diag_ones_identity; assumption.
  - apply Norm_cov_scalar.
  - apply Norm_cov_vector.
  - apply Norm_cov_matrix.
Qed.

(** C7. Whenever [Norm.logpdf] returns, the value is a rank-one tensor, a
    flat sequence, also when the computation yields a single number. *)
Theorem Norm_logpdf_returns_flat (x : tensor) (mu Sigma : option tensor)
    (t : tensor) :
  Norm_logpdf x mu Sigma = Ok t ->
  rank t = 1 /\ exists l : list F, t = Vector l.
Proof.
  unfold Norm_logpdf. intros H.
  apply bind_Ok in H. destruct H as [r [_ H]].
  apply bind_Ok in H. destruct H as [[Sigma_inv det_Sigma] [_ H]].
  apply bind_Ok in H. destruct H as [lps [_ H]].
  injection H as <-. split.
  - reflexivity.
  - exists (elements lps). reflexivity.
Qed.

Lemma Norm_lps_scalar_spec (d : nat) (r Sigma_inv det_Sigma : tensor) :
  Norm_lps_scalar d r Sigma_inv det_Sigma
  = density_elementwise d r Sigma_inv det_Sigma.
Proof.
  unfold Norm_lps_scalar, Norm_head, density_elementwise, lift2.
  destruct (tf_mul (py (fneg fhalf *. of_nat d)) _) as [a|e]; cbn [bind]; [|reflexivity].
  destruct (tf_mul (py fhalf) (tf_log det_Sigma)) as [b|e]; cbn [bind]; [|reflexivity].
  destruct (tf_sub a b) as [ab|e]; cbn [bind]; [|reflexivity].
  destruct (tf_mul (py fhalf) r) as [hr|e]; cbn [bind]; [|reflexivity].
  destruct (tf_mul hr Sigma_inv) as [hrs|e]; cbn [bind]; [|reflexivity].
  destruct (tf_mul hrs r) as [c|e]; reflexivity.
Qed.

Lemma Norm_lps_quad_spec (d : nat) (r Sigma_inv det_Sigma : tensor) :
  Norm_lps_quad d r Sigma_inv det_Sigma
  = density_quadratic d r Sigma_inv det_Sigma.
Proof.
  unfold Norm_lps_quad, Norm_head, density_quadratic, quadratic_form, lift2.
  destruct (tf_mul (py (fneg fhalf *. of_nat d)) _) as [a|e]; cbn [bind]; [|reflexivity].
  destruct (tf_mul (py fhalf) (tf_log det_Sigma)) as [b|e]; cbn [bind]; [|reflexivity].
  destruct (tf_sub a b) as [ab|e]; cbn [bind]; [|reflexivity].
  destruct (dot (tf_transpose r) Sigma_inv) as [rS|e]; cbn [bind]; [|reflexivity].
  destruct (dot rS r) as [q|e]; reflexivity.
Qed.

(** C2. With the residual [r] and the pair [(Sigma_inv, det_Sigma)] of the
    rank dispatch, [Norm.logpdf] is the flattened element-wise density when
    the dimensionality [d] of [x] is one, and the flattened
    quadratic-form density otherwise. *)
Theorem Norm_logpdf_density (x : tensor) (mu Sigma : option tensor)
    (r Sigma_inv det_Sigma : tensor) :
  Norm_residual (hd 0 (get_dims x)) x mu = Ok r ->
  Norm_cov (hd 0 (get_dims x)) Sigma = Ok (Sigma_inv, det_Sigma) ->
  Norm_logpdf x mu Sigma
  = rmap tf_reshape_flat
      (if hd 0 (get_dims x) =? 1
       then density_elementwise (hd 0 (get_dims x)) r Sigma_inv det_Sigma
       else density_quadratic (hd 0 (get_dims x)) r Sigma_inv det_Sigma).
Proof.
  intros Hr Hc. unfold Norm_logpdf. rewrite Hr, Hc. cbn [bind].
  rewrite Norm_lps_scalar_spec, Norm_lps_quad_spec. reflexivity.
Qed.

(** The quadratic-form branch on a two-dimensional point with a diagonal
    covariance, evaluated. *)
Example Norm_logpdf_diagonal_2d (x1 x2 m1 m2 s1 s2 : F) :
  Norm_logpdf (Vector [x1; x2]) (Some (Vector [m1; m2]))
    (Some (Vector [s1; s2]))
  = Ok (Vector
          [fneg fhalf *. of_nat 2 *. flog (ftwo *. fpi)
           -. fhalf *. flog (fone *. s1 *. s2)
           -. fhalf
              *. (fzero
                  +. (fzero +. (x1 -. m1) *. (fone /. s1) +. (x2 -. m2) *. fzero)
                     *. (x1 -. m1)
                  +. (fzero +. (x1 -. m1) *. fzero +. (x2 -. m2) *. (fone /. s2))
                     *. (x2 -. m2))]).
Proof. reflexivity. Qed.

End NormDispatch.

(** ** Closed forms of the single-branch densities *)

Section ClosedForms.

Context {F : Type} {ops : FloatOps F} {la : LinAlg F} {sf : SpecialFunctions F}.

Local Abbreviation tensor := (tensor F).
Local Open Scope float_scope.

Ltac scalar_ops :=
  repeat (rewrite ?tf_binop_scalar_l, ?tf_binop_scalar_r, ?tf_map_map;
          cbn [bind tf_map]).

Ltac bind_step :=
  match goal with
  | |- context [bind ?c _] =>
      lazymatch c with
      | bind _ _ => fail
      | Ok _ => fail
      | Err _ => fail
      | _ => destruct c; cbn [bind]; try reflexivity
      end
  end.

(** With a scalar [b], [Beta.logpdf] is [Beta_value b] at every element
    of the squeezed [x], whatever [a] is. *)
Lemma Beta_logpdf_scalar_b (x a : tensor) (b : F) :
  Beta_logpdf x a (Scalar b) = Ok (tf_map (Beta_value b) (tf_squeeze x)).
Proof.
  unfold Beta_logpdf, log_beta, py, tf_constant.
  cbn [tf_squeeze].
  unfold tf_sub, tf_mul, tf_add, tf_log.
  generalize (tf_squeeze x) as X. intros X.
  scalar_ops.
  rewrite (tf_binop_same fadd
             (fun v => (b -. fone) *. flog v)
             (fun v => (b -. fone) *. flog (fone -. v)) X).
  scalar_ops. reflexivity.
Qed.

(** C5. The two assignments [a = squeeze(b)], [b = squeeze(a)] run in
    sequence, so both shape variables hold the squeezed [b]: the value is
    the closed form at [(b, b)] and does not depend on the argument [a]. *)
Theorem Beta_logpdf_ignores_a :
  (forall x a b : tensor,
      Beta_logpdf x a b
      = Beta_density (tf_squeeze x) (tf_squeeze b) (tf_squeeze b))
  /\ (forall (x a : tensor) (b : F),
         Beta_logpdf x a (Scalar b)
         = Ok (tf_map (Beta_value b) (tf_squeeze x)))
  /\ (forall b x : F, Beta_value b x = Beta_closed_form b b x)
  /\ (forall x a1 a2 b : tensor, Beta_logpdf x a1 b = Beta_logpdf x a2 b).
Proof.
  split; [|split; [|split]].
  - intros x a b. unfold Beta_logpdf. rewrite !tf_squeeze_idem.
    unfold Beta_density, lift2, rmap.
    generalize (tf_squeeze x) (tf_squeeze b). intros X B.
    repeat bind_step.
  - apply Beta_logpdf_scalar_b.
  - intros b x. reflexivity.
  - intros x a1 a2 b. reflexivity.
Qed.

(** C9. [T.logpdf] is the expression
    [0.5*lgamma(df+1) - lgamma(0.5*df) - 0.5*(log pi + log df) + log scale
     - 0.5*(df+1)*log(1 + (1/df)*((x-loc)/scale)^2)]
    on the squeezed arguments; with scalar parameters this is [T_value] at
    every element of [x]. *)
Theorem T_logpdf_formula :
  (forall x df loc scale : tensor,
      T_logpdf x df loc scale
      = T_density (tf_squeeze x) (tf_squeeze df) (tf_squeeze loc)
          (tf_squeeze scale))
  /\ (forall (x : tensor) (df loc scale : F),
         T_logpdf x (Scalar df) (Scalar loc) (Scalar scale)
         = Ok (tf_map (T_value df loc scale) (tf_squeeze x))).
Proof.
  split.
  - intros x df loc scale. unfold T_logpdf, T_density, lift2, rmap.
    generalize (tf_squeeze x) (tf_squeeze df) (tf_squeeze loc)
               (tf_squeeze scale).
    intros X DF LOC SCALE.
    repeat bind_step.
  - intros x df loc scale.
    unfold T_logpdf, log_gamma, py, tf_constant. cbn [tf_squeeze].
    unfold tf_sub, tf_mul, tf_add, tf_div, tf_log, tf_square.
    generalize (tf_squeeze x) as X. intros X.
    scalar_ops. reflexivity.
Qed.

(** C8. [Wishart.logpdf] raises [NotImplementedError] on every input and
    returns no value. *)
Theorem Wishart_logpdf_not_implemented (x df scale : tensor) :
  Wishart_logpdf x df scale = Err NotImplementedError
  /\ (forall v : tensor, Wishart_logpdf x df scale <> Ok v)
  /\ returns (Wishart_logpdf x df scale) = false.
Proof.
  repeat split. intros v H. discriminate H.
Qed.

(** C6. [Norm.entropy] takes the covariance only and returns
    [0.5*(d + d*log(2*pi) + log(det_Sigma))], with [det_Sigma] chosen by
    the rank of [Sigma] as in the log-density: the scalar itself, the
    product of the entries of a vector, the determinant of a matrix. *)
Theorem Norm_entropy_formula :
  (forall s : F,
      Norm_entropy (Scalar s) = Ok (Scalar (entropy_value 1 s)))
  /\ (forall l : list F,
         Norm_entropy (Vector l)
         = Ok (Scalar (entropy_value (length l) (reduce_prod l))))
  /\ (forall m : list (list F),
         Norm_entropy (Matrix m)
         = (det <- matrix_determinant m ;;
            Ok (Scalar (entropy_value (length m) det)))%result)
  /\ (forall (d : nat) (Sigma Sigma_inv : tensor) (det : F),
         Norm_cov d (Some Sigma) = Ok (Sigma_inv, Scalar det) ->
         Norm_entropy Sigma
         = Ok (Scalar (entropy_value (hd 0 (get_dims Sigma)) det))).
Proof.
  split; [|split; [|split]].
  - intros s. reflexivity.
  - intros l. reflexivity.
  - intros m. unfold Norm_entropy, tf_matrix_determinant, rmap.
    cbn [rank Nat.eqb bind get_dims get_shape hd].
    destruct (matrix_determinant m) as [det|e]; reflexivity.
  - intros d Sigma Sigma_inv det H.
    destruct Sigma as [s|l|m].
    + cbn in H. injection H as _ <-. reflexivity.
    + cbn in H. injection H as _ <-. reflexivity.
    + unfold Norm_cov, tf_matrix_inverse, tf_matrix_determinant, rmap in H.
      cbn [rank Nat.eqb] in H.
      unfold Norm_entropy, tf_matrix_determinant, rmap.
      cbn [rank Nat.eqb bind get_dims get_shape hd].
      destruct (matrix_inverse m) as [inv|e]; cbn [bind] in H; [|discriminate H].
      destruct (matrix_determinant m) as [det'|e]; cbn [bind] in H; [|discriminate H].
      injection H as _ <-. reflexivity.
Qed.

End ClosedForms.

(** ** The singletons carry no state *)

Section Statelessness.

Context {F : Type} {ops : FloatOps F} {la : LinAlg F} {sf : SpecialFunctions F}.

Local Abbreviation tensor := (tensor F).

Lemma run_method_self (c : method_call) (self : instance (F := F)) :
  snd (run_method c self) = self.
Proof. destruct c; reflexivity. Qed.

Lemma run_method_value (c : method_call) (self self' : instance (F := F)) :
  fst (run_method c self) = fst (run_method c self').
Proof. destruct c; reflexivity. Qed.

Lemma eqb_eq (n1 n2 : Singletons.name) :
  Singletons.eqb n1 n2 = true -> n1 = n2.
Proof. destruct n1, n2; simpl; intros H; try reflexivity; discriminate H. Qed.

Lemma invoke_value (c : method_call) (st : module_state (F := F)) :
  fst (invoke c st) = fst (run_method c (st (receiver c))).
Proof.
  unfold invoke. destruct (run_method c (st (receiver c))). reflexivity.
Qed.

Lemma invoke_state (c : method_call) (st : module_state (F := F))
    (n : Singletons.name) :
  snd (invoke c st) n = st n.
Proof.
  unfold invoke.
  pose proof (run_method_self c (st (receiver c))) as Hself.
  destruct (run_method c (st (receiver c))) as [v self]. simpl in Hself. simpl.
  unfold rebind. destruct (Singletons.eqb (receiver c) n) eqn:E.
  - apply eqb_eq in E. subst. reflexivity.
  - reflexivity.
Qed.

(** C10. Every log-density, log-mass and entropy method is a function of
    its arguments: the value of a call does not depend on the state of the
    module-level instances, a call leaves every instance as it was, so a
    second call with the same arguments gives the same value, and the
    instances are constructed without any field. *)
Theorem methods_deterministic_and_stateless (c : method_call) :
  (forall n : Singletons.name, module_init (F := F) n = [])
  /\ (forall st st' : module_state,
         fst (invoke c st) = fst (invoke c st'))
  /\ (forall (st : module_state) (n : Singletons.name),
         snd (invoke c st) n = st n)
  /\ (forall (c' : method_call) (st : module_state),
         fst (invoke c (snd (invoke c' st))) = fst (invoke c st))
  /\ (forall st : module_state,
         fst (invoke c (snd (invoke c st))) = fst (invoke c st)).
Proof.
  split; [|split; [|split; [|split]]].
  - intros n. reflexivity.
  - intros st st'. rewrite !invoke_value. apply run_method_value.
  - apply invoke_state.
  - intros c' st. rewrite !invoke_value. apply run_method_value.
  - intros st. rewrite !invoke_value. apply run_method_value.
Qed.

End Statelessness.

(** ** Agreement of the covariance branches *)

Section CovarianceAgreement.

Context {F : Type} {ops : FloatOps F} {la : LinAlg F}.

Local Abbreviation tensor := (tensor F).
Local Open Scope float_scope.

Lemma elements_tf_map (f : F -> F) (t : tensor) :
  elements (tf_map f t) = map f (elements t).
Proof.
  destruct t as [v|l|m]; simpl; try reflexivity.
  symmetry. apply concat_map.
Qed.

Lemma row_op_singleton_r (op : F -> F -> F) (l : list F) (c : F) :
  row_op op l [c] = Ok (map (fun a => op a c) l).
Proof.
  unfold row_op. destruct l as [|a [|b l]]; try reflexivity.
  change (bcast (fun a0 b0 => Ok (op a0 b0)) (a :: b :: l) [c])
    with (mapM (fun a0 => Ok (op a0 c)) (a :: b :: l)).
  apply mapM_pure.
Qed.

Lemma mapM_rows_singleton_r (op : F -> F -> F) (m : list (list F)) (c : F) :
  mapM (fun row => row_op op row [c]) m
  = Ok (map (map (fun a => op a c)) m).
Proof.
  induction m as [|row m IH]; simpl.
  - reflexivity.
  - rewrite row_op_singleton_r, IH. reflexivity.
Qed.

Lemma mat_op_1x1_r (op : F -> F -> F) (m : list (list F)) (c : F) :
  mat_op op m [[c]] = Ok (map (map (fun a => op a c)) m).
Proof.
  unfold mat_op. destruct m as [|row [|row' m]].
  - reflexivity.
  - simpl. rewrite row_op_singleton_r. reflexivity.
  - change (bcast (row_op op) (row :: row' :: m) [[c]])
      with (mapM (fun r => row_op op r [c]) (row :: row' :: m)).
    apply mapM_rows_singleton_r.
Qed.

Lemma row_op_map_l (op : F -> F -> F) (f : F -> F) (l : list F) :
  row_op op (map f l) l = Ok (map (fun v => op (f v) v) l).
Proof.
  rewrite <- (map_id l) at 2. apply (row_op_same op f (fun v => v)).
Qed.

Lemma mat_op_map_l (op : F -> F -> F) (f : F -> F) (m : list (list F)) :
  mat_op op (map (map f) m) m = Ok (map (map (fun v => op (f v) v)) m).
Proof.
  assert (Hid : map (map (fun v : F => v)) m = m).
  { rewrite <- (map_id m) at 2. apply map_ext. intros r. apply map_id. }
  rewrite <- Hid at 2. apply (mat_op_same op f (fun v => v)).
Qed.

Lemma elements_as_matrix (t : tensor) : elements (as_matrix t) = elements t.
Proof.
  destruct t as [v|l|m]; simpl; try reflexivity. apply app_nil_r.
Qed.

(** The term [0.5*r * Sigma_inv * r] with a scalar [Sigma_inv]. *)
Lemma weighted_square_scalar (r : tensor) (c : F) :
  (hr <- tf_mul (py fhalf) r ;;
   hrs <- tf_mul hr (Scalar c) ;;
   tf_mul hrs r)%result
  = Ok (tf_map (fun v => fhalf *. v *. c *. v) r).
Proof.
  unfold tf_mul, py, tf_constant.
  rewrite tf_binop_scalar_l. cbn [bind].
  rewrite tf_binop_scalar_r. cbn [bind].
  rewrite tf_map_map.
  destruct r as [v|l|m]; cbn [tf_map tf_binop].
  - reflexivity.
  - rewrite row_op_map_l. reflexivity.
  - rewrite mat_op_map_l. reflexivity.
Qed.

(** The same term with a one-by-one matrix [Sigma_inv]: broadcasting
    gives the same elements in a rank-two tensor. *)
Lemma weighted_square_1x1 (r : tensor) (c : F) :
  (hr <- tf_mul (py fhalf) r ;;
   hrs <- tf_mul hr (Matrix [[c]]) ;;
   tf_mul hrs r)%result
  = Ok (as_matrix (tf_map (fun v => fhalf *. v *. c *. v) r)).
Proof.
  unfold tf_mul, py, tf_constant.
  rewrite tf_binop_scalar_l. cbn [bind].
  destruct r as [v|l|m]; cbn [tf_map tf_binop as_matrix].
  - reflexivity.
  - unfold mat_op at 1. cbn [bcast mapM].
    rewrite row_op_singleton_r. cbn [bind rmap tf_binop].
    unfold mat_op. cbn [bcast mapM].
    rewrite map_map. rewrite row_op_map_l. reflexivity.
  - rewrite mat_op_1x1_r. cbn [bind rmap tf_binop].
    assert (Hmm : map (map (fun a : F => a *. c)) (map (map (fmul fhalf)) m)
                  = map (map (fun v => fhalf *. v *. c)) m).
    { rewrite map_map. apply map_ext. intros row. apply map_map. }
    rewrite Hmm. rewrite mat_op_map_l. reflexivity.
Qed.

Lemma Norm_head_scalar (d : nat) (det : F) :
  Norm_head d (Scalar det)
  = Ok (Scalar (fneg fhalf *. of_nat d *. flog (ftwo *. fpi)
                -. fhalf *. flog det)).
Proof. reflexivity. Qed.

(** In the branch [d == 1] a scalar [Sigma_inv] and the one-by-one matrix
    holding it give the same flat result. *)
Lemma Norm_lps_scalar_1x1 (d : nat) (r : tensor) (c det : F) :
  rmap tf_reshape_flat (Norm_lps_scalar d r (Scalar c) (Scalar det))
  = rmap tf_reshape_flat (Norm_lps_scalar d r (Matrix [[c]]) (Scalar det)).
Proof.
  unfold Norm_lps_scalar. rewrite Norm_head_scalar. cbn [bind].
  pose proof (weighted_square_scalar r c) as HS.
  pose proof (weighted_square_1x1 r c) as HM.
  destruct (tf_mul (py fhalf) r) as [hr|e]; cbn [bind] in HS, HM |- *;
    [|discriminate HS].
  destruct (tf_mul hr (Scalar c)) as [hrs|e]; cbn [bind] in HS |- *;
    [|discriminate HS].
  destruct (tf_mul hr (Matrix [[c]])) as [hrm|e]; cbn [bind] in HM |- *;
    [|discriminate HM].
  rewrite HS, HM. cbn [bind].
  unfold tf_sub. rewrite !tf_binop_scalar_l. cbn [rmap bind].
  unfold tf_reshape_flat.
  rewrite !elements_tf_map, elements_as_matrix, elements_tf_map.
  reflexivity.
Qed.

Lemma Norm_logpdf_cov_ext (x : tensor) (mu S1 S2 : option tensor) :
  Norm_cov (hd 0 (get_dims x)) S1 = Norm_cov (hd 0 (get_dims x)) S2 ->
  Norm_logpdf x mu S1 = Norm_logpdf x mu S2.
Proof.
  intros H. unfold Norm_logpdf. rewrite H. reflexivity.
Qed.

Lemma reduce_prod_ones (d : nat) :
  fone *. fone = fone -> reduce_prod (repeat fone d) = fone.
Proof.
  intros H. unfold reduce_prod.
  induction d as [|d IH]; simpl.
  - reflexivity.
  - rewrite H. exact IH.
Qed.

(** The quadratic-form branch rejects a scalar [Sigma_inv]: the matrix
    product has no rank-zero operand. *)
Lemma dot_scalar_r_fails (r : tensor) (c : F) :
  exists e, dot (tf_transpose r) (Scalar c) = Err e.
Proof.
  destruct r as [v|l|m]; unfold dot; cbn [tf_transpose rank Nat.eqb].
  - exists IndexError. reflexivity.
  - unfold shape0, tf_reshape_row. cbn [get_shape bind elements].
    rewrite Nat.eqb_refl. cbn [bind]. exists ShapeError. reflexivity.
  - exists IndexError. reflexivity.
Qed.

(** Outside dimensionality one a scalar covariance makes [Norm.logpdf]
    fail. *)
Lemma Norm_logpdf_scalar_cov_fails (x : tensor) (mu : option tensor) (s : F) :
  hd 0 (get_dims x) <> 1 ->
  exists e : error, Norm_logpdf x mu (Some (Scalar s)) = Err e.
Proof.
  intros Hd. unfold Norm_logpdf.
  destruct (Norm_residual (hd 0 (get_dims x)) x mu) as [r|e]; cbn [bind].
  - rewrite Norm_cov_scalar. cbn [bind].
    apply Nat.eqb_neq in Hd. rewrite Hd.
    unfold Norm_lps_quad. rewrite Norm_head_scalar. cbn [bind].
    destruct (dot_scalar_r_fails r (fone /. s)) as [e He].
    rewrite He. exists e. reflexivity.
  - exists e. reflexivity.
Qed.

(** C3, as the code has it.  Over element arithmetic in which [1/1 = 1]
    and [1*v = v], and with an engine whose inverse and determinant are
    exact on [s*I]: an absent covariance agrees with the vector of ones
    (and with the identity matrix), a constant vector agrees with the
    matrix [s*I], and for dimensionality one the scalar [s] agrees with
    both.  For any other dimensionality a scalar covariance is rejected by
    the matrix product of the quadratic form. *)
Theorem Norm_logpdf_covariances_agree (x : tensor) (mu : option tensor)
    (s : F) :
  fone /. fone = fone ->
  (forall v : F, fone *. v = v) ->
  matrix_inverse (diag (repeat s (hd 0 (get_dims x))))
  = Ok (diag (repeat (fone /. s) (hd 0 (get_dims x)))) ->
  matrix_determinant (diag (repeat s (hd 0 (get_dims x))))
  = Ok (reduce_prod (repeat s (hd 0 (get_dims x)))) ->
  Norm_logpdf x mu None
  = Norm_logpdf x mu (Some (Vector (repeat fone (hd 0 (get_dims x)))))
  /\ Norm_logpdf x mu (Some (Vector (repeat s (hd 0 (get_dims x)))))
     = Norm_logpdf x mu (Some (Matrix (diag (repeat s (hd 0 (get_dims x))))))
  /\ (s = fone ->
      Norm_logpdf x mu None
      = Norm_logpdf x mu (Some (Matrix (diag (repeat fone (hd 0 (get_dims x)))))))
  /\ (hd 0 (get_dims x) = 1 ->
      Norm_logpdf x mu (Some (Scalar s))
      = Norm_logpdf x mu (Some (Vector (repeat s (hd 0 (get_dims x))))))
  /\ (hd 0 (get_dims x) <> 1 ->
      exists e : error, Norm_logpdf x mu (Some (Scalar s)) = Err e).
Proof.
  intros Hdiv Hmul Hinv Hdet.
  set (d := hd 0 (get_dims x)) in Hinv, Hdet |- * .
  assert (Habs : Norm_logpdf x mu None
                 = Norm_logpdf x mu (Some (Vector (repeat fone d)))).
  { apply Norm_logpdf_cov_ext. fold d.
    rewrite Norm_cov_absent, Norm_cov_vector.
    rewrite map_repeat, Hdiv, reduce_prod_ones by apply Hmul.
    reflexivity. }
  assert (Hvm : Norm_logpdf x mu (Some (Vector (repeat s d)))
                = Norm_logpdf x mu (Some (Matrix (diag (repeat s d))))).
  { apply Norm_logpdf_cov_ext. fold d.
    rewrite Norm_cov_vector, Norm_cov_matrix.
    rewrite Hinv, Hdet, map_repeat. reflexivity. }
  split; [exact Habs|]. split; [exact Hvm|].
  split; [|split].
  - intros ->. rewrite Habs. exact Hvm.
  - intros Hd. rewrite Hd.
    unfold Norm_logpdf. fold d. rewrite Hd.
    destruct (Norm_residual 1 x mu) as [r|e]; cbn [bind]; [|reflexivity].
    rewrite Norm_cov_scalar, Norm_cov_vector. cbn [bind Nat.eqb].
    cbn [repeat map diag length]. unfold reduce_prod. cbn [fold_left].
    rewrite Hmul.
    apply (Norm_lps_scalar_1x1 1 r (fone /. s) s).
  - apply Norm_logpdf_scalar_cov_fails.
Qed.

End CovarianceAgreement.

(** ** Instances over the real numbers *)

Section RealEngine.

#[local] Existing Instance R_ops.
#[local] Existing Instance R_linalg.

Local Open Scope R_scope.

Ltac entrywise :=
  repeat match goal with
         | |- Ok _ = Ok _ => f_equal
         | |- Vector _ = Vector _ => f_equal
         | |- Matrix _ = Matrix _ => f_equal
         | |- Scalar _ = Scalar _ => f_equal
         | |- cons _ _ = cons _ _ => apply (f_equal2 cons)
         | |- nil = nil => reflexivity
         end.

Lemma R_inverse_2I :
  matrix_inverse (diag (repeat 2 2)) = Ok (diag (repeat (1 / 2) 2)).
Proof.
  unfold matrix_inverse, R_linalg, exact_linalg.
  cbn [diag repeat length map is_square forallb Nat.eqb andb].
  unfold adjugate_inverse, cofactor_det, minor, sign, reduce_sum.
  cbn [length seq map remove_nth det_fuel nth fold_left Nat.add Nat.even
       fone fzero fneg fmul fdiv fadd R_ops].
  unfold sign, reduce_sum.
  cbn [fold_left Nat.even fone fzero fneg fmul fdiv fadd R_ops].
  entrywise; field.
Qed.

Lemma R_determinant_2I :
  matrix_determinant (diag (repeat 2 2)) = Ok (reduce_prod (repeat 2 2)).
Proof.
  unfold matrix_determinant, R_linalg, exact_linalg.
  cbn [diag repeat length map is_square forallb Nat.eqb andb].
  unfold cofactor_det, sign, reduce_sum, reduce_prod.
  cbn [length seq map remove_nth det_fuel nth fold_left Nat.even
       fone fzero fneg fmul fdiv fadd R_ops].
  unfold sign, reduce_sum.
  cbn [fold_left Nat.even fone fzero fneg fmul fdiv fadd R_ops].
  f_equal. ring.
Qed.

Lemma R_div_one : (fone /. fone)%float = fone.
Proof. cbn [fone fdiv R_ops]. field. Qed.

Lemma R_mul_one_l (v : R) : (fone *. v)%float = v.
Proof. cbn [fone fmul R_ops]. ring. Qed.

(** The standard normal at its mode: with [x = 0], [mu = 0] and
    [Sigma = 1] the log-density is [-0.5*log(2*pi)]. *)
Example Norm_logpdf_standard_mode :
  Norm_logpdf (Scalar 0) (Some (Scalar 0)) (Some (Scalar 1))
  = Ok (Vector [- (1 / 2) * ln (2 * PI)]).
Proof.
  cbn [Norm_logpdf Norm_residual Norm_cov Norm_lps_scalar Norm_head
       get_dims hd rank Nat.eqb bind tf_sub tf_mul tf_div tf_log tf_binop
       tf_map py tf_constant tf_reshape_flat elements
       fone fzero fhalf ftwo fpi fneg fmul fdiv fadd fsub flog of_nat R_ops].
  unfold tf_reshape_flat. cbn [elements].
  entrywise. rewrite ln_1. cbn [INR]. field.
Qed.

Lemma Norm_cov_by_rank_witness :
  nth 0 (nth 1 (diag (repeat 1 2)) []) 0 = 0.
Proof.
  exact (proj1 (proj2 (@Norm_cov_by_rank R R_ops R_linalg 2)) 0%nat 1%nat
           (Nat.lt_0_succ 1) (Nat.lt_succ_diag_r 1)).
Defined.

Lemma Norm_logpdf_density_witness :
  Norm_logpdf (Scalar 0) (Some (Scalar 0)) (Some (Scalar 1))
  = rmap tf_reshape_flat
      (density_elementwise 1 (Scalar (0 - 0)) (Scalar (1 / 1)) (Scalar 1)).
Proof.
  apply (@Norm_logpdf_density R R_ops R_linalg (Scalar 0) (Some (Scalar 0))
           (Some (Scalar 1)) (Scalar (0 - 0)) (Scalar (1 / 1)) (Scalar 1)).
  - reflexivity.
  - reflexivity.
Defined.

Lemma Norm_logpdf_returns_flat_witness :
  rank (tf_reshape_flat (Scalar (- (1 / 2) * INR 1 * ln (2 * PI)
                                 - 1 / 2 * ln 1
                                 - 1 / 2 * (0 - 0) * (1 / 1) * (0 - 0)))) = 1%nat.
Proof.
  apply (@Norm_logpdf_returns_flat R R_ops R_linalg (Scalar 0)
           (Some (Scalar 0)) (Some (Scalar 1))).
  reflexivity.
Defined.

Lemma Norm_entropy_formula_witness :
  Norm_entropy (Scalar 2) = Ok (Scalar (entropy_value 1 2)).
Proof.
  apply (proj2 (proj2 (proj2 (@Norm_entropy_formula R R_ops R_linalg)))
           1%nat (Scalar 2) (Scalar (1 / 2)) 2).
  reflexivity.
Defined.

Lemma Norm_logpdf_covariances_agree_witness :
  Norm_logpdf (Vector [1; 2]) None (Some (Vector [2; 2]))
  = Norm_logpdf (Vector [1; 2]) None (Some (Matrix [[2; 0]; [0; 2]])).
Proof.
  exact (proj1 (proj2
           (@Norm_logpdf_covariances_agree R R_ops R_linalg
              (Vector [1; 2]) None 2
              R_div_one R_mul_one_l R_inverse_2I R_determinant_2I))).
Defined.

(** At the point [(0, 0)] an absent covariance gives a value and the
    scalar covariance one gives a failure. *)
Lemma Norm_logpdf_scalar_cov_disagrees :
  Norm_logpdf (Vector [0; 0]) None None
  <> Norm_logpdf (Vector [0; 0]) None (Some (Scalar 1)).
Proof.
  destruct (@Norm_logpdf_scalar_cov_fails R R_ops R_linalg
              (Vector [0; 0]) None 1) as [e He].
  - cbn [get_dims get_shape length hd]. discriminate.
  - rewrite He. intros H.
    assert (Hret : returns (Norm_logpdf (Vector [0; 0]) None None) = true)
      by reflexivity.
    rewrite H in Hret. discriminate Hret.
Qed.

Lemma ln_half_neq_ln_three_quarters : ln (1 / 2) <> ln (3 / 4).
Proof.
  intros H. apply ln_inv in H; lra.
Qed.

(** C4. At [x = 1/4], [a = 2], [b = 3] the code returns the closed form at
    [(b, b)], and a log-Beta function for which this is the closed form
    with the parameters exchanged at both [x = 1/4] and [x = 1/2] does not
    exist: the parameters are not exchanged. *)
Theorem Beta_logpdf_not_swapped (lg : R -> R) (lb : R -> R -> R) :
  @Beta_logpdf R R_ops (R_special lg lb) (Scalar (1 / 4)) (Scalar 2) (Scalar 3)
  = Ok (Scalar (@Beta_value R R_ops (R_special lg lb) 3 (1 / 4)))
  /\ @Beta_value R R_ops (R_special lg lb) 3 (1 / 4)
     = 2 * ln (1 / 4) + 2 * ln (3 / 4) - lb 3 3
  /\ (@Beta_closed_form R R_ops (R_special lg lb) 3 2 (1 / 4)
      <> @Beta_value R R_ops (R_special lg lb) 3 (1 / 4)
      \/ @Beta_closed_form R R_ops (R_special lg lb) 3 2 (1 / 2)
         <> @Beta_value R R_ops (R_special lg lb) 3 (1 / 2)).
Proof.
  split; [|split].
  - apply (@Beta_logpdf_scalar_b R R_ops (R_special lg lb)
             (Scalar (1 / 4)) (Scalar 2) 3).
  - unfold Beta_value.
    cbn [fone fmul fsub fadd flog lbeta R_ops R_special special_of].
    replace (3 - 1) with 2 by ring.
    replace (1 - 1 / 4) with (3 / 4) by field.
    reflexivity.
  - unfold Beta_closed_form, Beta_value.
    cbn [fone fmul fsub fadd flog lbeta R_ops R_special special_of].
    replace (1 - 1 / 4) with (3 / 4) by field.
    replace (1 - 1 / 2) with (1 / 2) by field.
    destruct (Req_dec
                ((3 - 1) * ln (1 / 2) + (2 - 1) * ln (1 / 2) - lb 3 2)
                ((3 - 1) * ln (1 / 2) + (3 - 1) * ln (1 / 2) - lb 3 3))
      as [E|N].
    + left. intros E'. apply ln_half_neq_ln_three_quarters. lra.
    + right. exact N.
Qed.

End RealEngine.

(** ** Shapes: broadcasting of equal and of unequal lengths *)

Section Shapes.

Context {F : Type} {ops : FloatOps F} {la : LinAlg F} {sf : SpecialFunctions F}.

Local Abbreviation tensor := (tensor F).
Local Open Scope float_scope.

Lemma zipM_combine (op : F -> F -> F) (l1 l2 : list F) :
  length l1 = length l2 ->
  zipM (fun a b => Ok (op a b)) l1 l2
  = Ok (map (fun p => op (fst p) (snd p)) (combine l1 l2)).
Proof.
  revert l2. induction l1 as [|a l1 IH]; intros [|b l2] H; simpl in H;
    try discriminate H.
  - reflexivity.
  - simpl. rewrite IH by (injection H as H; exact H). reflexivity.
Qed.

Lemma zipM_mismatch (op : F -> F -> F) (l1 l2 : list F) :
  length l1 <> length l2 ->
  zipM (fun a b => Ok (op a b)) l1 l2 = Err ShapeError.
Proof.
  revert l2. induction l1 as [|a l1 IH]; intros [|b l2] H; simpl in H;
    try reflexivity.
  - contradiction H. reflexivity.
  - simpl. rewrite IH by (intros E; apply H; rewrite E; reflexivity).
    reflexivity.
Qed.

Lemma zipM_length (op : F -> F -> F) (l1 l2 l : list F) :
  zipM (fun a b => Ok (op a b)) l1 l2 = Ok l -> length l = length l1.
Proof.
  intros H. destruct (Nat.eq_dec (length l1) (length l2)) as [E|N].
  - rewrite zipM_combine in H by exact E. injection H as <-.
    rewrite length_map, length_combine, <- E. apply Nat.min_id.
  - rewrite zipM_mismatch in H by exact N. discriminate H.
Qed.

(** Two vectors of one length combine element by element. *)
Lemma row_op_eq_len (op : F -> F -> F) (l1 l2 : list F) :
  length l1 = length l2 ->
  row_op op l1 l2 = Ok (map (fun p => op (fst p) (snd p)) (combine l1 l2)).
Proof.
  intros H. unfold row_op.
  destruct l1 as [|a [|a' l1]]; destruct l2 as [|b [|b' l2]];
    simpl in H; try discriminate H; try reflexivity.
  change (bcast (fun a0 b0 => Ok (op a0 b0)) (a :: a' :: l1) (b :: b' :: l2))
    with (zipM (fun a0 b0 => Ok (op a0 b0)) (a :: a' :: l1) (b :: b' :: l2)).
  apply zipM_combine. simpl. exact H.
Qed.

(** Two vectors of different lengths, neither of length one, do not
    broadcast. *)
Lemma row_op_mismatch (op : F -> F -> F) (l1 l2 : list F) :
  2 <= length l1 -> 2 <= length l2 -> length l1 <> length l2 ->
  row_op op l1 l2 = Err ShapeError.
Proof.
  intros H1 H2 H. unfold row_op.
  destruct l1 as [|a [|a' l1]]; simpl in H1; try lia.
  destruct l2 as [|b [|b' l2]]; simpl in H2; try lia.
  change (bcast (fun a0 b0 => Ok (op a0 b0)) (a :: a' :: l1) (b :: b' :: l2))
    with (zipM (fun a0 b0 => Ok (op a0 b0)) (a :: a' :: l1) (b :: b' :: l2)).
  apply zipM_mismatch. exact H.
Qed.

Lemma row_op_length (op : F -> F -> F) (l1 l2 l : list F) :
  2 <= length l1 -> row_op op l1 l2 = Ok l -> length l = length l1.
Proof.
  intros H1 H. unfold row_op in H.
  destruct l1 as [|a [|a' l1]]; simpl in H1; try lia.
  destruct l2 as [|b [|b' l2]].
  - discriminate H.
  - change (mapM (fun a0 => Ok (op a0 b)) (a :: a' :: l1) = Ok l) in H.
    rewrite mapM_pure in H. injection H as <-.
    exact (length_map (fun a0 => op a0 b) (a :: a' :: l1)).
  - change (zipM (fun a0 b0 => Ok (op a0 b0)) (a :: a' :: l1) (b :: b' :: l2)
            = Ok l) in H.
    apply zipM_length in H. exact H.
Qed.

Lemma tf_binop_vector_mismatch (op : F -> F -> F) (l1 l2 : list F) :
  2 <= length l1 -> 2 <= length l2 -> length l1 <> length l2 ->
  tf_binop op (Vector l1) (Vector l2) = Err ShapeError.
Proof.
  intros H1 H2 H. cbn [tf_binop].
  rewrite row_op_mismatch by assumption. reflexivity.
Qed.

Lemma squeeze_vector_long (l : list F) :
  2 <= length l -> tf_squeeze (Vector l) = Vector l.
Proof.
  intros H. destruct l as [|a [|b l]]; simpl in H; try lia. reflexivity.
Qed.

End Shapes.

(** ** The quadratic form of [Norm.logpdf] on a vector *)

Section NormVector.

Context {F : Type} {ops : FloatOps F} {la : LinAlg F} {sf : SpecialFunctions F}.

Local Abbreviation tensor := (tensor F).
Local Open Scope float_scope.

Lemma diag_columns (c : list F) :
  map (fun j => map (fun r => nth j r fzero) (diag c)) (seq 0 (length c))
  = diag c.
Proof.
  induction c as [|v c IH].
  - reflexivity.
  - cbn [length seq map diag nth]. apply (f_equal2 cons).
    + f_equal. rewrite map_map. cbn [nth].
      rewrite <- (diag_length c). apply map_const.
    + rewrite <- seq_shift, map_map.
      rewrite <- IH at 1. rewrite map_map.
      apply map_ext. intros j. rewrite nth_repeat.
      f_equal. rewrite map_map. reflexivity.
Qed.

(** A diagonal matrix is its own transpose. *)
Lemma transpose_diag (c : list F) : transpose_rows (diag c) = diag c.
Proof.
  destruct c as [|v c].
  - reflexivity.
  - rewrite <- (diag_columns (v :: c)) at 2.
    cbn [diag transpose_rows length]. rewrite repeat_length. reflexivity.
Qed.

(** The transpose of a column is the row of its elements. *)
Lemma transpose_column (r : list F) :
  r <> [] -> transpose_rows (map (fun v => [v]) r) = [r].
Proof.
  destruct r as [|a r]; intros H.
  - contradiction H. reflexivity.
  - cbn [map transpose_rows length seq nth]. f_equal. f_equal.
    rewrite map_map. cbn [nth]. apply map_id.
Qed.

Lemma dot_row (r : list F) (M : list (list F)) :
  dot (tf_transpose (Vector r)) (Matrix M)
  = if length r =? length M
    then Ok (Matrix [map (dotp r) (transpose_rows M)])
    else Err ShapeError.
Proof.
  unfold dot, shape0, tf_reshape_row.
  cbn [tf_transpose rank Nat.eqb get_shape bind elements].
  rewrite Nat.eqb_refl. cbn [bind tf_matmul]. unfold matmul.
  cbn [forallb]. rewrite andb_true_r.
  destruct (length r =? length M); reflexivity.
Qed.

Lemma dot_column (w r : list F) :
  r <> [] ->
  dot (Matrix [w]) (Vector r)
  = if length w =? length r
    then Ok (Matrix [[dotp w r]])
    else Err ShapeError.
Proof.
  intros Hr. unfold dot, shape0, tf_reshape_col.
  cbn [rank Nat.eqb get_shape bind elements].
  rewrite Nat.eqb_refl. cbn [bind tf_matmul]. unfold matmul.
  cbn [forallb]. rewrite andb_true_r, length_map.
  destruct (length w =? length r); [|reflexivity].
  rewrite transpose_column by exact Hr. reflexivity.
Qed.

(** The branch [d != 1] on a vector residual and a matrix [Sigma_inv]:
    the two matrix products leave one number. *)
Lemma Norm_lps_quad_vector (d : nat) (r : list F) (M : list (list F))
    (det : F) :
  r <> [] ->
  Norm_lps_quad d (Vector r) (Matrix M) (Scalar det)
  = if (length r =? length M) && (length (transpose_rows M) =? length r)
    then Ok (Matrix
               [[fneg fhalf *. of_nat d *. flog (ftwo *. fpi)
                 -. fhalf *. flog det
                 -. fhalf *. dotp (map (dotp r) (transpose_rows M)) r]])
    else Err ShapeError.
Proof.
  intros Hr. unfold Norm_lps_quad.
  rewrite Norm_head_scalar. cbn [bind]. rewrite dot_row.
  destruct (length r =? length M); cbn [bind andb]; [|reflexivity].
  rewrite dot_column by exact Hr. rewrite length_map.
  destruct (length (transpose_rows M) =? length r); reflexivity.
Qed.

(** The pair of the rank dispatch: the determinant has rank zero and
    [Sigma_inv] is a scalar or a matrix. *)
Lemma Norm_cov_shapes (d : nat) (Sigma : option tensor)
    (Sigma_inv det_Sigma : tensor) :
  Norm_cov d Sigma = Ok (Sigma_inv, det_Sigma) ->
  (exists dv, det_Sigma = Scalar dv)
  /\ ((exists c, Sigma_inv = Scalar c) \/ (exists M, Sigma_inv = Matrix M)).
Proof.
  destruct Sigma as [[s|l|m]|].
  - rewrite Norm_cov_scalar. intros H. injection H as <- <-.
    split; [eexists|left; eexists]; reflexivity.
  - rewrite Norm_cov_vector. intros H. injection H as <- <-.
    split; [eexists|right; eexists]; reflexivity.
  - rewrite Norm_cov_matrix. intros H.
    apply bind_Ok in H. destruct H as [inv [_ H]].
    apply bind_Ok in H. destruct H as [dv [_ H]].
    injection H as <- <-.
    split; [eexists|right; eexists]; reflexivity.
  - rewrite Norm_cov_absent. intros H. injection H as <- <-.
    split; [eexists|right; eexists]; reflexivity.
Qed.

(** The residual of a vector [x] of at least two elements against a mean
    of rank at most one is a vector of the length of [x]. *)
Lemma Norm_residual_vector (l : list F) (mu : option tensor) (r : tensor) :
  2 <= length l ->
  (forall m, mu = Some m -> rank m <= 1) ->
  Norm_residual (length l) (Vector l) mu = Ok r ->
  exists r', r = Vector r' /\ length r' = length l.
Proof.
  intros Hl Hmu H. destruct mu as [[m|m|m]|]; cbn in H.
  - injection H as <-. eexists. split; [reflexivity|apply length_map].
  - destruct (row_op fsub l m) as [r'|e] eqn:E; [|discriminate H].
    injection H as <-. exists r'. split; [reflexivity|].
    apply (row_op_length _ _ _ Hl E).
  - specialize (Hmu _ eq_refl). cbn in Hmu. lia.
  - destruct (row_op fmul (repeat fone (length l)) l) as [r'|e] eqn:E;
      [|discriminate H].
    injection H as <-. exists r'. split; [reflexivity|].
    rewrite (row_op_length _ _ _ (l := r')) with (2 := E);
      rewrite repeat_length; [reflexivity|exact Hl].
Qed.

End NormVector.

(** ** Shapes and failures of [Norm.logpdf] *)

Section NormEdges.

Context {F : Type} {ops : FloatOps F} {la : LinAlg F} {sf : SpecialFunctions F}.

Local Abbreviation tensor := (tensor F).
Local Open Scope float_scope.

Lemma row_op_singleton_l (op : F -> F -> F) (c : F) (l : list F) :
  row_op op [c] l = Ok (map (op c) l).
Proof. unfold row_op. cbn [bcast]. apply mapM_pure. Qed.

Lemma mat_op_1x1_l (op : F -> F -> F) (c : F) (m : list (list F)) :
  mat_op op [[c]] m = Ok (map (map (op c)) m).
Proof.
  unfold mat_op. cbn [bcast].
  induction m as [|row m IH]; cbn [mapM map].
  - reflexivity.
  - rewrite row_op_singleton_l, IH. reflexivity.
Qed.

Lemma concat_cons_length {A : Type} (a : A) (m : list (list A)) :
  length (concat (map (cons a) m)) = length (concat m) + length m.
Proof.
  induction m as [|row m IH]; cbn [map concat length].
  - reflexivity.
  - rewrite !length_app, IH. cbn [length]. lia.
Qed.

Lemma diag_elements_length (l : list F) :
  length (concat (diag l)) = length l * length l.
Proof.
  induction l as [|v l IH]; cbn [diag concat length].
  - reflexivity.
  - rewrite length_app, concat_cons_length, IH, diag_length.
    cbn [length]. rewrite repeat_length. lia.
Qed.

Lemma concat_map_map_length (f : F -> F) (m : list (list F)) :
  length (concat (map (map f) m)) = length (concat m).
Proof.
  rewrite <- concat_map. apply length_map.
Qed.

Lemma tf_binop_vector1_matrix (op : F -> F -> F) (c : F) (M : list (list F)) :
  tf_binop op (Vector [c]) (Matrix M) = Ok (Matrix (map (map (op c)) M)).
Proof. cbn [tf_binop]. rewrite mat_op_1x1_l. reflexivity. Qed.

Lemma tf_binop_matrix_vector1 (op : F -> F -> F) (M : list (list F)) (c : F) :
  tf_binop op (Matrix M) (Vector [c])
  = Ok (Matrix (map (map (fun a => op a c)) M)).
Proof. cbn [tf_binop]. rewrite mat_op_1x1_r. reflexivity. Qed.

(** In the branch [d == 1] a matrix [Sigma_inv] against a residual of one
    element is scaled entry by entry: the result has the shape of
    [Sigma_inv]. *)
Lemma Norm_lps_scalar_matrix (d : nat) (r : tensor) (v : F)
    (M : list (list F)) (det : F) :
  r = Scalar v \/ r = Vector [v] ->
  Norm_lps_scalar d r (Matrix M) (Scalar det)
  = Ok (Matrix
          (map (map (fun s =>
                       fneg fhalf *. of_nat d *. flog (ftwo *. fpi)
                       -. fhalf *. flog det
                       -. fhalf *. v *. s *. v)) M)).
Proof.
  intros Hr. unfold Norm_lps_scalar. rewrite Norm_head_scalar. cbn [bind].
  unfold tf_mul, tf_sub, py, tf_constant.
  destruct Hr as [-> | ->]; rewrite tf_binop_scalar_l; cbn [bind tf_map map].
  - rewrite tf_binop_scalar_l. cbn [bind tf_map].
    rewrite tf_binop_scalar_r. cbn [bind tf_map].
    rewrite tf_binop_scalar_l. cbn [tf_map].
    do 2 f_equal. rewrite !map_map. apply map_ext. intros row.
    rewrite !map_map. reflexivity.
  - rewrite tf_binop_vector1_matrix. cbn [bind].
    rewrite tf_binop_matrix_vector1. cbn [bind].
    rewrite tf_binop_scalar_l. cbn [tf_map].
    do 2 f_equal. rewrite !map_map. apply map_ext. intros row.
    rewrite !map_map. reflexivity.
Qed.

(** X3. For a point [x] of at least two coordinates and a mean that is absent,
    a scalar or a vector, whatever the covariance: when [Norm.logpdf]
    returns, it returns exactly one number, in a vector of length one. *)
Theorem Norm_logpdf_point_single_value (l : list F)
    (mu Sigma : option tensor) (t : tensor) :
  2 <= length l ->
  (forall m, mu = Some m -> rank m <= 1) ->
  Norm_logpdf (Vector l) mu Sigma = Ok t ->
  exists v, t = Vector [v].
Proof.
  intros Hl Hmu H. unfold Norm_logpdf in H.
  cbn [get_dims get_shape hd] in H.
  apply bind_Ok in H. destruct H as [r [Hr H]].
  apply bind_Ok in H. destruct H as [[Sinv det] [Hc H]].
  apply bind_Ok in H. destruct H as [lps [Hq H]]. injection H as <-.
  destruct (Norm_residual_vector _ Hl Hmu Hr) as [r' [-> Hlen]].
  destruct (Norm_cov_shapes _ _ Hc) as [[dv ->] HS].
  assert (Hd : (length l =? 1) = false) by (apply Nat.eqb_neq; lia).
  rewrite Hd in Hq.
  assert (Hr' : r' <> []).
  { intros ->. cbn [length] in Hlen. lia. }
  destruct HS as [[c ->]|[M ->]].
  - unfold Norm_lps_quad in Hq. rewrite Norm_head_scalar in Hq.
    cbn [bind] in Hq.
    destruct (dot_scalar_r_fails (Vector r') c) as [e He].
    rewrite He in Hq. discriminate Hq.
  - rewrite Norm_lps_quad_vector in Hq by exact Hr'.
    destruct (_ && _) in Hq; [|discriminate Hq].
    injection Hq as <-. eexists. reflexivity.
Qed.

(** X4. A vector [x] and a vector [mu] of different lengths, both longer than
    one, make [Norm.logpdf] fail with a shape failure before the
    covariance is looked at. *)
Theorem Norm_logpdf_mean_length_mismatch (l m : list F)
    (Sigma : option tensor) :
  2 <= length l -> 2 <= length m -> length l <> length m ->
  Norm_logpdf (Vector l) (Some (Vector m)) Sigma = Err ShapeError.
Proof.
  intros Hl Hm Hne. unfold Norm_logpdf, Norm_residual.
  cbn [rank Nat.eqb]. unfold tf_sub.
  rewrite tf_binop_vector_mismatch by assumption. reflexivity.
Qed.

(** X5. The size of a vector [Sigma] is never compared with the
    dimensionality of [x]: for a scalar [x] and a scalar or absent mean, a
    vector [Sigma] of [n] variances is accepted and the result holds
    [n * n] numbers, one for each entry of the diagonal matrix. *)
Theorem Norm_logpdf_scalar_point_vector_cov (x : F) (mu : option F)
    (l : list F) :
  exists out,
    Norm_logpdf (Scalar x) (option_map Scalar mu) (Some (Vector l))
    = Ok (Vector out)
    /\ length out = length l * length l.
Proof.
  unfold Norm_logpdf. rewrite Norm_cov_vector.
  cbn [get_dims hd Nat.eqb].
  destruct mu as [m|]; cbn [option_map Norm_residual rank Nat.eqb].
  - unfold tf_sub. rewrite tf_binop_scalar_r. cbn [bind tf_map].
    rewrite (Norm_lps_scalar_matrix 1 (v := x -. m)) by (left; reflexivity).
    cbn [bind]. eexists. split; [reflexivity|].
    cbn [elements]. rewrite concat_map_map_length, diag_elements_length.
    rewrite length_map. reflexivity.
  - unfold tf_mul, tf_ones. cbn [repeat].
    rewrite tf_binop_scalar_r. cbn [bind tf_map map].
    rewrite (Norm_lps_scalar_matrix 1 (v := fone *. x)) by (right; reflexivity).
    cbn [bind]. eexists. split; [reflexivity|].
    cbn [elements]. rewrite concat_map_map_length, diag_elements_length.
    rewrite length_map. reflexivity.
Qed.

Lemma ones_times (l : list F) :
  (forall v, fone *. v = v) ->
  map (fun p => fst p *. snd p) (combine (repeat fone (length l)) l) = l.
Proof.
  intros H1. induction l as [|a l IH]; cbn [length repeat combine map fst snd].
  - reflexivity.
  - rewrite H1, IH. reflexivity.
Qed.

(** X6. With element arithmetic in which [1*v = v] and [v - 0 = v], an absent
    mean is the zero mean: for a scalar or vector [x] and every covariance
    argument, [Norm.logpdf] with [mu] left out equals [Norm.logpdf] with
    [mu = 0]. *)
Theorem Norm_logpdf_absent_mean_is_zero (x : tensor) (Sigma : option tensor) :
  (forall v, fone *. v = v) ->
  (forall v, v -. fzero = v) ->
  rank x <= 1 ->
  Norm_logpdf x None Sigma = Norm_logpdf x (Some (Scalar fzero)) Sigma.
Proof.
  intros H1 H0 Hx. destruct x as [v|l|m]; cbn [rank] in Hx; [| |lia].
  - unfold Norm_logpdf. cbn [get_dims hd Nat.eqb Norm_residual rank].
    unfold tf_mul, tf_sub, tf_ones. cbn [repeat].
    rewrite !tf_binop_scalar_r. cbn [bind tf_map map].
    rewrite H1, H0.
    destruct (Norm_cov 1 Sigma) as [[Sinv det]|e] eqn:Hc; cbn [bind];
      [|reflexivity].
    destruct (Norm_cov_shapes _ _ Hc) as [[dv ->] [[c ->]|[M ->]]].
    + reflexivity.
    + rewrite (Norm_lps_scalar_matrix 1 (v := v)) by (right; reflexivity).
      rewrite (Norm_lps_scalar_matrix 1 (v := v)) by (left; reflexivity).
      reflexivity.
  - unfold Norm_logpdf. cbn [get_dims get_shape hd Norm_residual rank Nat.eqb].
    unfold tf_mul, tf_sub, tf_ones. cbn [tf_binop].
    rewrite row_op_eq_len by apply repeat_length.
    rewrite ones_times by exact H1.
    rewrite (map_ext _ (fun a => a) H0), map_id. reflexivity.
Qed.

End NormEdges.

(** ** [Norm.logpdf] over the reals: diagonal covariances *)

Section RealGaussian.

#[local] Existing Instance R_ops.
#[local] Existing Instance R_linalg.

Local Open Scope R_scope.

Lemma R_fold_plus (l : list R) (a : R) :
  fold_left Rplus l a = a + fold_left Rplus l 0.
Proof.
  revert a. induction l as [|b l IH]; intros a; cbn [fold_left].
  - ring.
  - rewrite (IH (a + b)), (IH (0 + b)). ring.
Qed.

Lemma R_reduce_sum_cons (a : R) (l : list R) :
  reduce_sum (a :: l) = a + reduce_sum l.
Proof.
  unfold reduce_sum. cbn [fold_left fadd fzero R_ops].
  rewrite R_fold_plus. ring.
Qed.

Lemma R_dotp_cons (a b : R) (r c : list R) :
  dotp (a :: r) (b :: c) = a * b + dotp r c.
Proof.
  unfold dotp. cbn [combine map fst snd]. apply R_reduce_sum_cons.
Qed.

Lemma R_dotp_zeros (r : list R) (n : nat) : dotp r (repeat 0 n) = 0.
Proof.
  revert n. induction r as [|a r IH]; intros [|n]; cbn [repeat];
    try reflexivity.
  rewrite R_dotp_cons, IH. ring.
Qed.

(** A row against a diagonal matrix: every coordinate is scaled by its
    diagonal entry. *)
Lemma R_map_dotp_diag (r c : list R) :
  length r = length c ->
  map (dotp r) (diag c) = map (fun p => fst p * snd p) (combine r c).
Proof.
  revert r. induction c as [|v c IH]; intros [|a r] H; cbn [length] in H;
    try discriminate H; try reflexivity.
  cbn [diag map combine fst snd]. apply (f_equal2 cons).
  - rewrite R_dotp_cons.
    change (@fzero R R_ops) with 0. rewrite R_dotp_zeros. ring.
  - rewrite map_map. rewrite <- IH by (injection H as H; exact H).
    apply map_ext. intros row.
    change (@fzero R R_ops) with 0. rewrite R_dotp_cons. ring.
Qed.

Lemma combine_map_both {A B C D : Type} (f : A -> C) (g : B -> D)
    (l1 : list A) (l2 : list B) :
  combine (map f l1) (map g l2)
  = map (fun p => (f (fst p), g (snd p))) (combine l1 l2).
Proof.
  revert l2. induction l1 as [|a l1 IH]; intros [|b l2];
    cbn [map combine fst snd]; try reflexivity.
  rewrite IH. reflexivity.
Qed.

Lemma R_weighted_products (r c : list R) :
  length c = length r ->
  map (fun p => fst p * snd p)
      (combine (map (fun p => fst p * snd p) (combine r c)) r)
  = map (fun p => fst p * snd p * fst p) (combine r c).
Proof.
  revert c. induction r as [|a r IH]; intros [|b c] H; cbn [length] in H;
    try discriminate H; try reflexivity.
  cbn [combine map fst snd]. rewrite IH by (injection H as H; exact H).
  reflexivity.
Qed.

(** The branch [d != 1] against a diagonal [Sigma_inv]: the quadratic form
    is the weighted sum of squares of the residual. *)
Lemma R_Norm_lps_quad_diag (d : nat) (r c : list R) (det : R) :
  length c = length r -> r <> [] ->
  Norm_lps_quad d (Vector r) (Matrix (diag c)) (Scalar det)
  = Ok (Matrix
          [[- (1 / 2) * INR d * ln (2 * PI) - 1 / 2 * ln det
            - 1 / 2 * reduce_sum
                        (map (fun p => fst p * snd p * fst p) (combine r c))]]).
Proof.
  intros Hc Hr. rewrite Norm_lps_quad_vector by exact Hr.
  rewrite transpose_diag, !diag_length, Hc, Nat.eqb_refl. cbn [andb].
  rewrite R_map_dotp_diag by (symmetry; exact Hc).
  unfold dotp. rewrite R_weighted_products by exact Hc. reflexivity.
Qed.

Lemma R_sub_zero (v : R) : (v -. fzero)%float = v.
Proof. cbn [fsub fzero R_ops]. ring. Qed.

Lemma R_ones_weights (x : list R) :
  map (fun p => fst p * snd p * fst p) (combine x (repeat 1 (length x)))
  = map (fun v => v ^ 2) x.
Proof.
  induction x as [|a x IH]; cbn [length repeat combine map fst snd].
  - reflexivity.
  - rewrite IH. f_equal. ring.
Qed.

(** X1. Over the reals, for a point of [d >= 2] coordinates, a mean vector and
    a vector of variances of the same length, [Norm.logpdf] returns the
    log-density of the Gaussian with that diagonal covariance:
    [-d/2 log(2 pi) - 1/2 log(prod s_i) - 1/2 sum (x_i - mu_i)^2 / s_i]. *)
Theorem Norm_logpdf_diagonal_gaussian (x mu s : list R) :
  (2 <= length x)%nat -> length mu = length x -> length s = length x ->
  Norm_logpdf (Vector x) (Some (Vector mu)) (Some (Vector s))
  = Ok (Vector
          [- (1 / 2) * INR (length x) * ln (2 * PI)
           - 1 / 2 * ln (reduce_prod s)
           - 1 / 2 * reduce_sum
                       (map (fun p => (fst (fst p) - snd (fst p)) ^ 2 / snd p)
                            (combine (combine x mu) s))]).
Proof.
  intros Hx Hmu Hs. unfold Norm_logpdf. rewrite Norm_cov_vector.
  cbn [get_dims get_shape hd Norm_residual rank Nat.eqb].
  unfold tf_sub. cbn [tf_binop].
  rewrite row_op_eq_len by (symmetry; exact Hmu). cbn [rmap bind].
  assert (Hd : (length x =? 1)%nat = false) by (apply Nat.eqb_neq; lia).
  rewrite Hd.
  rewrite R_Norm_lps_quad_diag.
  - cbn [bind]. unfold tf_reshape_flat. cbn [elements concat app].
    do 4 f_equal. rewrite combine_map_both, map_map.
    do 2 f_equal. apply map_ext. intros [[a b] c]. cbn [fst snd fsub fdiv fone R_ops].
    unfold Rdiv. ring.
  - rewrite !length_map, length_combine, Hmu, Nat.min_id. exact Hs.
  - destruct x as [|a x]; [cbn [length] in Hx; lia|].
    destruct mu as [|b mu]; [discriminate Hmu|]. discriminate.
Qed.

(** X2. Over the reals, with mean and covariance left out, [Norm.logpdf] of a
    point of [d >= 2] coordinates is the standard Gaussian log-density
    [-d/2 log(2 pi) - 1/2 sum x_i^2]. *)
Theorem Norm_logpdf_standard_gaussian (x : list R) :
  (2 <= length x)%nat ->
  Norm_logpdf (Vector x) None None
  = Ok (Vector
          [- (1 / 2) * INR (length x) * ln (2 * PI)
           - 1 / 2 * reduce_sum (map (fun v => v ^ 2) x)]).
Proof.
  intros Hx. unfold Norm_logpdf. rewrite Norm_cov_absent.
  cbn [get_dims get_shape hd Norm_residual].
  unfold tf_mul, tf_ones. cbn [tf_binop].
  rewrite row_op_eq_len by apply repeat_length.
  rewrite (ones_times x R_mul_one_l). cbn [rmap bind].
  assert (Hd : (length x =? 1)%nat = false) by (apply Nat.eqb_neq; lia).
  rewrite Hd.
  rewrite R_Norm_lps_quad_diag.
  - cbn [bind]. unfold tf_reshape_flat. cbn [elements concat app].
    change (@fone R R_ops) with 1.
    rewrite R_ones_weights, ln_1. do 3 f_equal. ring.
  - apply repeat_length.
  - destruct x as [|a x]; [cbn [length] in Hx; lia|]. discriminate.
Qed.

End RealGaussian.

(** ** Instances of the [Norm.logpdf] statements over the reals *)

Section RealGaussianInstances.

#[local] Existing Instance R_ops.
#[local] Existing Instance R_linalg.

Local Open Scope R_scope.

Lemma Norm_logpdf_diagonal_gaussian_witness :
  Norm_logpdf (Vector [1; 2]) (Some (Vector [0; 0])) (Some (Vector [2; 2]))
  = Ok (Vector
          [- (1 / 2) * INR 2 * ln (2 * PI)
           - 1 / 2 * ln (reduce_prod [2; 2])
           - 1 / 2 * reduce_sum
                       (map (fun p => (fst (fst p) - snd (fst p)) ^ 2 / snd p)
                            [(1, 0, 2); (2, 0, 2)])]).
Proof.
  exact (Norm_logpdf_diagonal_gaussian [1; 2] [0; 0] [2; 2]
           (le_n 2) eq_refl eq_refl).
Defined.

Lemma Norm_logpdf_standard_gaussian_witness :
  Norm_logpdf (Vector [1; 2]) None None
  = Ok (Vector
          [- (1 / 2) * INR 2 * ln (2 * PI)
           - 1 / 2 * reduce_sum [1 ^ 2; 2 ^ 2]]).
Proof.
  exact (Norm_logpdf_standard_gaussian [1; 2] (le_n 2)).
Defined.

Lemma Norm_logpdf_point_single_value_witness :
  exists t : tensor R,
    Norm_logpdf (Vector [1; 2]) (Some (Scalar 0)) None = Ok t
    /\ exists v, t = Vector [v].
Proof.
  eexists. split.
  - reflexivity.
  - apply (@Norm_logpdf_point_single_value R R_ops R_linalg [1; 2]
             (Some (Scalar 0)) None).
    + apply le_n.
    + intros m H. injection H as <-. apply le_S, le_n.
    + reflexivity.
Defined.

Lemma Norm_logpdf_mean_length_mismatch_witness :
  Norm_logpdf (Vector [1; 2]) (Some (Vector [0; 0; 0])) None
  = Err ShapeError.
Proof.
  apply (@Norm_logpdf_mean_length_mismatch R R_ops R_linalg
           [1; 2] [0; 0; 0] None).
  - apply le_n.
  - apply le_S, le_n.
  - discriminate.
Defined.

Lemma Norm_logpdf_absent_mean_is_zero_witness :
  Norm_logpdf (Vector [1; 2]) None (Some (Vector [2; 2]))
  = Norm_logpdf (Vector [1; 2]) (Some (Scalar 0)) (Some (Vector [2; 2])).
Proof.
  exact (@Norm_logpdf_absent_mean_is_zero R R_ops R_linalg
           (Vector [1; 2]) (Some (Vector [2; 2]))
           R_mul_one_l R_sub_zero (le_n 1)).
Defined.

End RealGaussianInstances.

(** ** The element-wise distributions *)

Section Univariate.

Context {F : Type} {ops : FloatOps F} {la : LinAlg F} {sf : SpecialFunctions F}.

Local Abbreviation tensor := (tensor F).
Local Open Scope float_scope.

Ltac scalar_steps :=
  repeat (rewrite ?tf_binop_scalar_l, ?tf_binop_scalar_r, ?tf_map_map;
          cbn [bind tf_map]).

Lemma Bernoulli_logpmf_scalar_p (x : tensor) (p : F) :
  Bernoulli_logpmf x (Scalar p)
  = Ok (tf_map (fun v => v *. flog p +. (fone -. v) *. flog (fone -. p))
          (tf_squeeze x)).
Proof.
  unfold Bernoulli_logpmf, py, tf_constant. cbn [tf_squeeze].
  unfold tf_sub, tf_mul, tf_add, tf_log.
  generalize (tf_squeeze x) as X. intros X.
  scalar_steps.
  rewrite (tf_binop_same fadd
             (fun v => v *. flog p)
             (fun v => (fone -. v) *. flog (fone -. p)) X).
  reflexivity.
Qed.

Lemma Expon_logpdf_scalar_scale (x : tensor) (scale : F) :
  Expon_logpdf x (Scalar scale)
  = Ok (tf_map (fun v => fneg v /. scale -. flog scale) (tf_squeeze x)).
Proof.
  unfold Expon_logpdf. cbn [tf_squeeze].
  unfold tf_sub, tf_div, tf_log, tf_neg.
  generalize (tf_squeeze x) as X. intros X.
  scalar_steps. reflexivity.
Qed.

Lemma Gamma_logpdf_scalar_params (x : tensor) (a scale : F) :
  Gamma_logpdf x (Scalar a) (Scalar scale)
  = Ok (tf_map (fun v => (a -. fone) *. flog v -. v /. scale
                         -. a *. flog scale -. lgamma a)
          (tf_squeeze x)).
Proof.
  unfold Gamma_logpdf, log_gamma, py, tf_constant. cbn [tf_squeeze].
  unfold tf_sub, tf_mul, tf_div, tf_log.
  generalize (tf_squeeze x) as X. intros X.
  scalar_steps.
  rewrite (tf_binop_same fsub
             (fun v => (a -. fone) *. flog v)
             (fun v => v /. scale) X).
  scalar_steps. reflexivity.
Qed.

Lemma Poisson_logpmf_scalar_mu (x : tensor) (mu : F) :
  Poisson_logpmf x (Scalar mu)
  = Ok (tf_map (fun v => v *. flog mu -. mu -. lgamma (v +. fone))
          (tf_squeeze x)).
Proof.
  unfold Poisson_logpmf, log_gamma, py, tf_constant. cbn [tf_squeeze].
  unfold tf_sub, tf_mul, tf_add, tf_log.
  generalize (tf_squeeze x) as X. intros X.
  scalar_steps.
  rewrite (tf_binop_same fsub
             (fun v => v *. flog mu -. mu)
             (fun v => lgamma (v +. fone)) X).
  reflexivity.
Qed.

Lemma T_logpdf_scalar_params (x : tensor) (df loc scale : F) :
  T_logpdf x (Scalar df) (Scalar loc) (Scalar scale)
  = Ok (tf_map (T_value df loc scale) (tf_squeeze x)).
Proof.
  unfold T_logpdf, log_gamma, py, tf_constant. cbn [tf_squeeze].
  unfold tf_sub, tf_mul, tf_add, tf_div, tf_log, tf_square.
  generalize (tf_squeeze x) as X. intros X.
  scalar_steps. reflexivity.
Qed.



(** X10. Every element-wise log-density squeezes its arguments first, so a call
    on already squeezed arguments gives the same result: singleton
    dimensions of [x] and of the parameters do not matter. *)
Theorem logpdf_squeeze_invariant (x a b c : tensor) :
  Bernoulli_logpmf (tf_squeeze x) (tf_squeeze a) = Bernoulli_logpmf x a
  /\ Dirichlet_logpdf (tf_squeeze x) (tf_squeeze a) = Dirichlet_logpdf x a
  /\ Expon_logpdf (tf_squeeze x) (tf_squeeze a) = Expon_logpdf x a
  /\ Gamma_logpdf (tf_squeeze x) (tf_squeeze a) (tf_squeeze b)
     = Gamma_logpdf x a b
  /\ InvGamma_logpdf (tf_squeeze x) (tf_squeeze a) (tf_squeeze b)
     = InvGamma_logpdf x a b
  /\ Multinomial_logpmf (tf_squeeze x) (tf_squeeze a) (tf_squeeze b)
     = Multinomial_logpmf x a b
  /\ Poisson_logpmf (tf_squeeze x) (tf_squeeze a) = Poisson_logpmf x a
  /\ T_logpdf (tf_squeeze x) (tf_squeeze a) (tf_squeeze b) (tf_squeeze c)
     = T_logpdf x a b c.
Proof.
  unfold Bernoulli_logpmf, Dirichlet_logpdf, Expon_logpdf, Gamma_logpdf,
    InvGamma_logpdf, Multinomial_logpmf, Poisson_logpmf, T_logpdf.
  rewrite !tf_squeeze_idem. repeat split.
Qed.

(** X11. A vector [x] and a vector parameter of different lengths, both longer
    than one, do not broadcast: the Bernoulli, exponential and Poisson
    log-densities fail with a shape failure, and so does the Gamma
    log-density on such [x] and [scale]. *)
Theorem logpdf_length_mismatch (l m : list F) (a : F) :
  2 <= length l -> 2 <= length m -> length l <> length m ->
  Bernoulli_logpmf (Vector l) (Vector m) = Err ShapeError
  /\ Expon_logpdf (Vector l) (Vector m) = Err ShapeError
  /\ Poisson_logpmf (Vector l) (Vector m) = Err ShapeError
  /\ Gamma_logpdf (Vector l) (Scalar a) (Vector m) = Err ShapeError.
Proof.
  intros Hl Hm Hne.
  unfold Bernoulli_logpmf, Expon_logpdf, Poisson_logpmf, Gamma_logpdf.
  rewrite !squeeze_vector_long by assumption. cbn [tf_squeeze].
  unfold tf_mul, tf_div, tf_sub, tf_log, tf_neg, py, tf_constant.
  cbn [tf_map].
  repeat split.
  - rewrite tf_binop_vector_mismatch;
      rewrite ?length_map; try assumption. reflexivity.
  - rewrite tf_binop_vector_mismatch;
      rewrite ?length_map; try assumption. reflexivity.
  - rewrite tf_binop_vector_mismatch;
      rewrite ?length_map; try assumption. reflexivity.
  - scalar_steps.
    rewrite (tf_binop_vector_mismatch fdiv l m) by assumption. reflexivity.
Qed.

End Univariate.

(** ** The element-wise distributions over the reals *)

Section RealDensities.

#[local] Existing Instance R_ops.
#[local] Existing Instance R_linalg.

Local Open Scope R_scope.

Ltac in_reals :=
  cbn [fadd fsub fmul fdiv fneg flog fzero fone fhalf ftwo fpi of_nat
       lgamma lbeta R_ops R_special special_of].

(** X12. Over the reals and for [0 < p < 1], [Bernoulli.logpmf] is the
    logarithm of a probability mass: the mass it gives to [1] is [p] and
    the mass it gives to [0] is [1 - p]. *)
Theorem Bernoulli_logpmf_masses (p : R) :
  0 < p < 1 ->
  exists l0 l1 : R,
    Bernoulli_logpmf (Scalar 0) (Scalar p) = Ok (Scalar l0)
    /\ Bernoulli_logpmf (Scalar 1) (Scalar p) = Ok (Scalar l1)
    /\ exp l0 = 1 - p /\ exp l1 = p.
Proof.
  intros [Hp0 Hp1]. rewrite !Bernoulli_logpmf_scalar_p.
  cbn [tf_squeeze tf_map]. in_reals.
  eexists. eexists. split; [reflexivity|]. split; [reflexivity|]. split.
  - replace (0 * ln p + (1 - 0) * ln (1 - p)) with (ln (1 - p)) by ring.
    apply exp_ln. lra.
  - replace (1 * ln p + (1 - 1) * ln (1 - p)) with (ln p) by ring.
    apply exp_ln. exact Hp0.
Qed.

(** X13. Over the reals and for a positive [scale], [Expon.logpdf] is the
    logarithm of the exponential density with mean [scale]:
    [exp(logpdf(x)) = (1/scale) * exp(-x/scale)]. *)
Theorem Expon_logpdf_density (x scale : R) :
  0 < scale ->
  exists v : R,
    Expon_logpdf (Scalar x) (Scalar scale) = Ok (Scalar v)
    /\ exp v = / scale * exp (- x / scale).
Proof.
  intros Hs. rewrite Expon_logpdf_scalar_scale.
  cbn [tf_squeeze tf_map]. in_reals.
  eexists. split; [reflexivity|].
  unfold Rminus. rewrite exp_plus, exp_Ropp, exp_ln by exact Hs.
  apply Rmult_comm.
Qed.

(** X7. Over the reals, for a positive variance [s], [Norm.logpdf] on scalars
    is the logarithm of the Gaussian density with mean [mu] and variance
    [s] (the covariance argument is a variance, not a standard
    deviation). *)
Theorem Norm_logpdf_scalar_density (x mu s : R) :
  0 < s ->
  exists v : R,
    Norm_logpdf (Scalar x) (Some (Scalar mu)) (Some (Scalar s))
    = Ok (Vector [v])
    /\ exp v = / sqrt (2 * PI * s) * exp (- (x - mu) ^ 2 / (2 * s)).
Proof.
  intros Hs. eexists. split; [reflexivity|]. in_reals.
  cbn [get_dims hd INR].
  assert (H2pi : 0 < 2 * PI) by (pose proof PI_RGT_0; lra).
  assert (Hprod : 0 < 2 * PI * s) by (apply Rmult_lt_0_compat; assumption).
  replace (- (1 / 2) * 1 * ln (2 * PI) - 1 / 2 * ln s
           - 1 / 2 * (x - mu) * (1 / s) * (x - mu))
    with (- (/ 2 * ln (2 * PI * s)) + - (x - mu) ^ 2 / (2 * s)).
  - rewrite exp_plus, exp_Ropp. f_equal. f_equal.
    change (exp (/ 2 * ln (2 * PI * s))) with (Rpower (2 * PI * s) (/ 2)).
    apply Rpower_sqrt. exact Hprod.
  - rewrite ln_mult by assumption. field. lra.
Qed.

Section LogGamma.

Variable lg : R -> R.
Variable lb : R -> R -> R.

(** X14. With a log-Gamma function that vanishes at [1], the Gamma log-density
    of shape [a = 1] is the exponential log-density of the same scale, on
    every input [x]. *)
Theorem Gamma_logpdf_shape_one_is_Expon (x : tensor R) (scale : R) :
  lg 1 = 0 ->
  Gamma_logpdf (sf := R_special lg lb) x (Scalar 1) (Scalar scale)
  = Expon_logpdf x (Scalar scale).
Proof.
  intros H1. rewrite Gamma_logpdf_scalar_params, Expon_logpdf_scalar_scale.
  f_equal. apply tf_map_ext. intros v. in_reals.
  rewrite H1. unfold Rdiv. ring.
Qed.

(** X15. With a log-Gamma function that satisfies its recurrence at [x + 1],
    consecutive Poisson log-masses differ by [log mu - log (x + 1)]: the
    mass ratio of the Poisson distribution. *)
Theorem Poisson_logpmf_ratio (x mu : R) :
  lg (x + 1 + 1) = lg (x + 1) + ln (x + 1) ->
  exists p0 p1 : R,
    Poisson_logpmf (sf := R_special lg lb) (Scalar x) (Scalar mu)
    = Ok (Scalar p0)
    /\ Poisson_logpmf (sf := R_special lg lb) (Scalar (x + 1)) (Scalar mu)
       = Ok (Scalar p1)
    /\ p1 - p0 = ln mu - ln (x + 1).
Proof.
  intros Hrec. rewrite !Poisson_logpmf_scalar_mu.
  cbn [tf_squeeze tf_map]. in_reals.
  eexists. eexists. split; [reflexivity|]. split; [reflexivity|].
  rewrite Hrec. ring.
Qed.

(** X16. The Student-t log-density is symmetric about [loc]: the points
    [loc + h] and [loc - h] get the same value. *)
Theorem T_logpdf_symmetric (df loc scale h : R) :
  T_logpdf (sf := R_special lg lb)
    (Scalar (loc + h)) (Scalar df) (Scalar loc) (Scalar scale)
  = T_logpdf (sf := R_special lg lb)
      (Scalar (loc - h)) (Scalar df) (Scalar loc) (Scalar scale).
Proof.
  rewrite !T_logpdf_scalar_params. cbn [tf_squeeze tf_map].
  unfold T_value. in_reals.
  replace ((loc + h - loc) / scale * ((loc + h - loc) / scale))
    with ((loc - h - loc) / scale * ((loc - h - loc) / scale))
    by (unfold Rdiv; ring).
  reflexivity.
Qed.

(** X17. Because both shape variables hold [b], the value [Beta.logpdf] returns
    is symmetric about [1/2] for every pair of shape parameters: the
    points [x] and [1 - x] get the same value. *)
Theorem Beta_logpdf_symmetric (x b : R) (a : tensor R) :
  Beta_logpdf (sf := R_special lg lb) (Scalar x) a (Scalar b)
  = Beta_logpdf (sf := R_special lg lb) (Scalar (1 - x)) a (Scalar b).
Proof.
  rewrite !Beta_logpdf_scalar_b. cbn [tf_squeeze tf_map].
  unfold Beta_value. in_reals.
  replace (1 - (1 - x)) with x by ring.
  do 2 f_equal. ring.
Qed.

End LogGamma.

End RealDensities.

(** ** Entropy of independent coordinates, and instances over the reals *)

Section RealEntropy.

#[local] Existing Instance R_ops.
#[local] Existing Instance R_linalg.

Local Open Scope R_scope.

Lemma R_fold_mult (l : list R) (a : R) :
  fold_left Rmult l a = a * fold_left Rmult l 1.
Proof.
  revert a. induction l as [|b l IH]; intros a; cbn [fold_left].
  - ring.
  - rewrite (IH (a * b)), (IH (1 * b)). ring.
Qed.

Lemma R_reduce_prod_cons (a : R) (l : list R) :
  reduce_prod (a :: l) = a * reduce_prod l.
Proof.
  unfold reduce_prod. cbn [fold_left fmul fone R_ops].
  rewrite R_fold_mult. ring.
Qed.

Lemma R_reduce_prod_pos (l : list R) :
  Forall (fun s => 0 < s) l -> 0 < reduce_prod l.
Proof.
  induction 1 as [|a l Ha _ IH].
  - unfold reduce_prod. cbn [fold_left fone R_ops]. lra.
  - rewrite R_reduce_prod_cons. apply Rmult_lt_0_compat; assumption.
Qed.

Lemma R_entropy_value_sum (l : list R) :
  Forall (fun s => 0 < s) l ->
  entropy_value (length l) (reduce_prod l)
  = reduce_sum (map (entropy_value 1) l).
Proof.
  induction 1 as [|a l Ha Hl IH].
  - unfold entropy_value, reduce_prod, reduce_sum.
    cbn [length map fold_left INR fadd fmul flog fhalf fzero fone ftwo fpi
         of_nat R_ops].
    rewrite ln_1. ring.
  - cbn [map length]. rewrite R_reduce_sum_cons, <- IH, R_reduce_prod_cons.
    unfold entropy_value.
    cbn [fadd fmul flog fhalf ftwo fpi of_nat R_ops].
    rewrite (ln_mult a (reduce_prod l) Ha (R_reduce_prod_pos Hl)).
    rewrite S_INR. cbn [INR]. ring.
Qed.

(** X8. Over the reals, the entropy of a vector of positive variances is the
    sum of the entropies [Norm.entropy] returns for each of them alone:
    independent coordinates add their entropies. *)
Theorem Norm_entropy_additive (l hs : list R) :
  Forall (fun s => 0 < s) l ->
  Forall2 (fun s h => Norm_entropy (Scalar s) = Ok (Scalar h)) l hs ->
  Norm_entropy (Vector l) = Ok (Scalar (reduce_sum hs)).
Proof.
  intros Hpos Hhs.
  assert (E : hs = map (entropy_value 1) l).
  { clear Hpos. induction Hhs as [|s h l hs H _ IH].
    - reflexivity.
    - change (Ok (Scalar (entropy_value 1 s)) = Ok (Scalar h)) in H.
      injection H as <-. rewrite IH. reflexivity. }
  rewrite E, <- R_entropy_value_sum by exact Hpos. reflexivity.
Qed.

Lemma Norm_entropy_additive_witness :
  Norm_entropy (Vector [2; 3])
  = Ok (Scalar (reduce_sum [entropy_value 1 2; entropy_value 1 3])).
Proof.
  apply (@Norm_entropy_additive [2; 3] [entropy_value 1 2; entropy_value 1 3]).
  - repeat constructor; lra.
  - repeat constructor.
Defined.

Lemma Bernoulli_logpmf_masses_witness :
  exists l0 l1 : R,
    Bernoulli_logpmf (Scalar 0) (Scalar (1 / 2)) = Ok (Scalar l0)
    /\ Bernoulli_logpmf (Scalar 1) (Scalar (1 / 2)) = Ok (Scalar l1)
    /\ exp l0 = 1 - 1 / 2 /\ exp l1 = 1 / 2.
Proof.
  apply (@Bernoulli_logpmf_masses (1 / 2)). lra.
Defined.

Lemma Expon_logpdf_density_witness :
  exists v : R,
    Expon_logpdf (Scalar 1) (Scalar 2) = Ok (Scalar v)
    /\ exp v = / 2 * exp (- 1 / 2).
Proof.
  apply (@Expon_logpdf_density 1 2). lra.
Defined.

Lemma Norm_logpdf_scalar_density_witness :
  exists v : R,
    Norm_logpdf (Scalar 1) (Some (Scalar 0)) (Some (Scalar 2))
    = Ok (Vector [v])
    /\ exp v = / sqrt (2 * PI * 2) * exp (- (1 - 0) ^ 2 / (2 * 2)).
Proof.
  apply (@Norm_logpdf_scalar_density 1 0 2). lra.
Defined.

Lemma Gamma_logpdf_shape_one_is_Expon_witness :
  Gamma_logpdf (sf := R_special ln (fun _ _ => 0))
    (Vector [1; 2]) (Scalar 1) (Scalar 2)
  = Expon_logpdf (Vector [1; 2]) (Scalar 2).
Proof.
  apply (@Gamma_logpdf_shape_one_is_Expon ln (fun _ _ => 0) (Vector [1; 2]) 2).
  exact ln_1.
Defined.

Lemma R_recurrence_at_zero : 0 = 0 + ln (0 + 1).
Proof. replace (0 + 1) with 1 by ring. rewrite ln_1. ring. Qed.

Lemma Poisson_logpmf_ratio_witness :
  exists p0 p1 : R,
    Poisson_logpmf (sf := R_special (fun _ => 0) (fun _ _ => 0))
      (Scalar 0) (Scalar 2) = Ok (Scalar p0)
    /\ Poisson_logpmf (sf := R_special (fun _ => 0) (fun _ _ => 0))
         (Scalar (0 + 1)) (Scalar 2) = Ok (Scalar p1)
    /\ p1 - p0 = ln 2 - ln (0 + 1).
Proof.
  exact (@Poisson_logpmf_ratio (fun _ => 0) (fun _ _ => 0) 0 2
           R_recurrence_at_zero).
Defined.

Lemma logpdf_length_mismatch_witness :
  Bernoulli_logpmf (Vector [1; 0]) (Vector [1 / 2; 1 / 2; 1 / 2])
  = Err ShapeError.
Proof.
  apply (@logpdf_length_mismatch R R_ops (R_special (fun _ => 0) (fun _ _ => 0))
           [1; 0] [1 / 2; 1 / 2; 1 / 2] 1).
  - apply le_n.
  - apply le_S, le_n.
  - discriminate.
Defined.

End RealEntropy.

(** ** The distributions on the simplex *)

Section Simplex.

Context {F : Type} {ops : FloatOps F} {la : LinAlg F} {sf : SpecialFunctions F}.

Local Abbreviation tensor := (tensor F).
Local Open Scope float_scope.

(** Two vectors of one length, squeezed and combined element by element:
    no shape failure, and the elements are those of the zipped lists. *)
Lemma squeezed_vectors_combine (op : F -> F -> F) (f g : F -> F)
    (l1 l2 : list F) :
  length l1 = length l2 ->
  exists m,
    tf_binop op (tf_map f (tf_squeeze (Vector l1)))
                (tf_map g (tf_squeeze (Vector l2))) = Ok m
    /\ elements m
       = map (fun p => op (f (fst p)) (g (snd p))) (combine l1 l2).
Proof.
  intros H.
  destruct l1 as [|a [|a' l1]]; destruct l2 as [|b [|b' l2]];
    cbn [length] in H; try discriminate H.
  - eexists. split; reflexivity.
  - eexists. split; reflexivity.
  - cbn [tf_squeeze squeeze_vector tf_map tf_binop].
    rewrite row_op_eq_len by (rewrite !length_map; exact H).
    eexists. split; [reflexivity|].
    cbn [elements]. rewrite combine_map_both, map_map. reflexivity.
Qed.

(** X18. For a point [x] and a concentration vector [alpha] of one length, and
    a normaliser [log_dirichlet] that returns the number [c],
    [Dirichlet.logpdf] returns the single number
    [-c + sum (alpha_i - 1) * log x_i]. *)
Theorem Dirichlet_logpdf_value (xs al : list F) (c : F) :
  length al = length xs ->
  log_dirichlet (tf_squeeze (Vector al)) = Ok (Scalar c) ->
  Dirichlet_logpdf (Vector xs) (Vector al)
  = Ok (Scalar
          (fneg c
           +. reduce_sum
                (map (fun p => (fst p -. fone) *. flog (snd p))
                     (combine al xs)))).
Proof.
  intros Hlen Hc. unfold Dirichlet_logpdf. rewrite Hc. cbn [bind].
  unfold tf_sub, py, tf_constant. rewrite tf_binop_scalar_r. cbn [bind].
  unfold tf_mul, tf_log.
  destruct (squeezed_vectors_combine fmul (fun v => v -. fone) flog
              al xs Hlen) as [m [Hm Hel]].
  rewrite Hm. cbn [bind]. unfold tf_reduce_sum. rewrite Hel. reflexivity.
Qed.

(** X19. For a count vector [x] and a probability vector [p] of one length, and
    a normaliser [log_multinomial] that returns the number [c],
    [Multinomial.logpmf] returns the single number
    [-c + sum x_i * log p_i]. *)
Theorem Multinomial_logpmf_value (xs ps : list F) (n : tensor) (c : F) :
  length xs = length ps ->
  log_multinomial (tf_squeeze (Vector xs)) (tf_squeeze n) = Ok (Scalar c) ->
  Multinomial_logpmf (Vector xs) n (Vector ps)
  = Ok (Scalar
          (fneg c
           +. reduce_sum
                (map (fun p => fst p *. flog (snd p)) (combine xs ps)))).
Proof.
  intros Hlen Hc. unfold Multinomial_logpmf. rewrite Hc. cbn [bind].
  unfold tf_mul, tf_log.
  destruct (squeezed_vectors_combine fmul (fun v => v) flog
              xs ps Hlen) as [m [Hm Hel]].
  assert (Hid : tf_map (fun v : F => v) (tf_squeeze (Vector xs))
                = tf_squeeze (Vector xs)).
  { destruct (tf_squeeze (Vector xs)) as [v|l|mm]; cbn [tf_map].
    - reflexivity.
    - rewrite map_id. reflexivity.
    - f_equal. rewrite <- (map_id mm) at 2. apply map_ext.
      intros r. apply map_id. }
  rewrite Hid in Hm. rewrite Hm. cbn [bind].
  unfold tf_reduce_sum. rewrite Hel. reflexivity.
Qed.

End Simplex.

Section RealSimplex.

#[local] Existing Instance R_ops.

Local Open Scope R_scope.

Lemma Dirichlet_logpdf_value_witness :
  Dirichlet_logpdf (sf := R_special (fun _ => 0) (fun _ _ => 0))
    (Vector [1 / 2; 1 / 2]) (Vector [2; 3])
  = Ok (Scalar
          (- (0 + 0 + 0 - 0)
           + reduce_sum
               (map (fun p => (fst p - 1) * ln (snd p))
                    [(2, 1 / 2); (3, 1 / 2)]))).
Proof.
  apply (@Dirichlet_logpdf_value R R_ops
           (R_special (fun _ => 0) (fun _ _ => 0))
           [1 / 2; 1 / 2] [2; 3] (0 + 0 + 0 - 0)).
  - reflexivity.
  - reflexivity.
Defined.

Lemma Multinomial_logpmf_value_witness :
  Multinomial_logpmf (sf := R_special (fun _ => 0) (fun _ _ => 0))
    (Vector [1; 2]) (Scalar 3) (Vector [1 / 2; 1 / 2])
  = Ok (Scalar
          (- (0 - (0 + 0 + 0))
           + reduce_sum
               (map (fun p => fst p * ln (snd p))
                    [(1, 1 / 2); (2, 1 / 2)]))).
Proof.
  apply (@Multinomial_logpmf_value R R_ops
           (R_special (fun _ => 0) (fun _ _ => 0))
           [1; 2] [1 / 2; 1 / 2] (Scalar 3) (0 - (0 + 0 + 0))).
  - reflexivity.
  - reflexivity.
Defined.

End RealSimplex.

(** ** The inverse Gamma distribution *)

Section InverseGamma.

Context {F : Type} {ops : FloatOps F} {la : LinAlg F} {sf : SpecialFunctions F}.

Local Abbreviation tensor := (tensor F).
Local Open Scope float_scope.

(** X20. With scalar parameters and a normaliser [log_inv_gamma] that returns
    the number [c], [InvGamma.logpdf] never fails, whatever the shape of
    [x]: at every element [v] of the squeezed [x] it is
    [-c - (alpha + 1) * log v - beta / v]. *)
Theorem InvGamma_logpdf_value (x : tensor) (alpha beta c : F) :
  log_inv_gamma (Scalar alpha) (Scalar beta) = Ok (Scalar c) ->
  InvGamma_logpdf x (Scalar alpha) (Scalar beta)
  = Ok (tf_map (fun v => fneg c -. (alpha +. fone) *. flog v -. beta /. v)
          (tf_squeeze x)).
Proof.
  intros Hc. unfold InvGamma_logpdf. cbn [tf_squeeze]. rewrite Hc.
  cbn [bind]. unfold tf_add, tf_sub, tf_mul, tf_div, tf_log, tf_neg, py,
    tf_constant.
  generalize (tf_squeeze x) as X. intros X.
  repeat (rewrite ?tf_binop_scalar_l, ?tf_binop_scalar_r, ?tf_map_map;
          cbn [bind tf_map]).
  rewrite (tf_binop_same fsub
             (fun v => fneg c -. (alpha +. fone) *. flog v)
             (fun v => beta /. v) X).
  reflexivity.
Qed.

End InverseGamma.

Section RealInverseGamma.

#[local] Existing Instance R_ops.

Local Open Scope R_scope.

Lemma InvGamma_logpdf_value_witness :
  InvGamma_logpdf (sf := R_special (fun _ => 0) (fun _ _ => 0))
    (Vector [1; 2]) (Scalar 2) (Scalar 3)
  = Ok (Vector
          (map (fun v => - (0 - 2 * ln 3) - (2 + 1) * ln v - 3 / v) [1; 2])).
Proof.
  apply (@InvGamma_logpdf_value R R_ops
           (R_special (fun _ => 0) (fun _ _ => 0))
           (Vector [1; 2]) 2 3 (0 - 2 * ln 3)).
  reflexivity.
Defined.

End RealInverseGamma.
